(** * Crank-Nicolson diffusion with explicit-Euler and Runge-Kutta reaction terms

    A shallow embedding of the notebook
    [2014-01-09-Crank_Nicolson_Runge_Kutta.ipynb] and the verification of its
    specification.

    The notebook computes with IEEE doubles; the embedding computes in an
    arbitrary real (ordered) field [F], which is the "exact arithmetic" the
    specification reasons in.  A one-dimensional numpy array of shape [(J,)]
    is a column vector ['cV[F]_J], a two-dimensional array of shape [(J,J)] is
    a matrix ['M[F]_J].  Code that can raise (an index out of bounds, a
    singular system) or leave the field (a division by zero) returns
    [option]. *)

From HB Require Import structures.
From mathcomp Require Import boot order algebra.

Set Implicit Arguments.
Unset Strict Implicit.
Unset Printing Implicit Defensive.

Import Order.TTheory GRing.Theory Num.Theory.
Local Open Scope ring_scope.

(** Sequencing of fallible computations. *)
Notation "'do' x <- e ; k" := (obind (fun x => k) e)
  (at level 200, x name, e at level 100, k at level 200, only parsing).

(** A [for] loop whose body can raise: the first failure ends the loop. *)
Fixpoint foldM (S T : Type) (body : S -> T -> option S) (s : S) (l : seq T)
    : option S :=
  if l is x :: l' then do s' <- body s x; foldM body s' l' else Some s.

(** Python's [float(a) / float(b)]: raises [ZeroDivisionError] for
    [b = 0]. *)
Definition pydiv (F : realFieldType) (a b : F) : option F :=
  if b == 0 then None else Some (a / b).

(** ** The numpy operations the notebook calls *)

Module Numpy.
Section Ops.

Variable F : realFieldType.
Variable J : nat.

Local Notation vec := 'cV[F]_J.

(** [numpy.array(s)] for a Python list [s] of [J] numbers. *)
Definition array (s : seq F) : vec := \col_i nth 0 s i.

(** [range(a, b)]. *)
Definition range (a b : nat) : seq nat := iota a (b - a).

(** Elementwise operations on two arrays of the same shape; the operators
    [+] and [-] of Python on two arrays are the sum and the difference of
    the vectors. *)
Definition multiply (a b : vec) : vec := \col_i (a i 0 * b i 0).
Definition subtract (a b : vec) : vec := a - b.

(** The same operations with a scalar first argument, which numpy
    broadcasts over the array. *)
Definition smultiply (c : F) (a : vec) : vec := \col_i (c * a i 0).
Definition sadd (c : F) (a : vec) : vec := \col_i (c + a i 0).

(** [numpy.divide(a, b)].  Where an entry of [b] is zero numpy produces
    [inf] or [nan], which is no element of the field: the embedding
    answers [None]. *)
Definition divide (a b : vec) : option vec :=
  if [forall i, b i 0 != 0] then Some (\col_i (a i 0 / b i 0)) else None.

(** [numpy.diagflat(v, k)]: the square array with [v] on its [k]-th
    diagonal, [res[i, i+k] = v[i]] for [k >= 0] and [res[i-k, i] = v[i]]
    for [k < 0], zero elsewhere.  Its dimension is [len(v) + |k|]; the
    embedding builds it at dimension [J], which is numpy's when
    [diagflat_dim v k = J]. *)
Definition diagflat_dim (v : seq F) (k : int) : nat := (size v + `|k|)%N.

Definition diagflat (v : seq F) (k : int) : 'M[F]_J :=
  \matrix_(i, j) if (j%:Z == i%:Z + k) then nth 0 v (minn i j) else 0.

(** [A.dot(x)] *)
Definition dot (A : 'M[F]_J) (x : vec) : vec := A *m x.

(** [numpy.linalg.solve(A, b)]: the solution of [A x = b]; raises
    [LinAlgError] when [A] is singular. *)
Definition solve (A : 'M[F]_J) (b : vec) : option vec :=
  if A \in unitmx then Some (invmx A *m b) else None.

(** [numpy.sum(a)], also Python's [sum(a)] on a one-dimensional array. *)
Definition sum (a : vec) : F := \sum_i a i 0.

(** [numpy.empty(shape=(n, J))]: [n] rows of arbitrary content. *)
Definition empty (junk : vec) (n : nat) : seq vec := nseq n junk.

(** [rec[i][:]] read, and [rec[i][:] = x]; both raise [IndexError] for
    [i >= len(rec)]. *)
Definition getitem (rec : seq vec) (i : nat) : option vec :=
  if (i < size rec)%N then Some (nth 0 rec i) else None.

Definition setitem (rec : seq vec) (i : nat) (x : vec) : option (seq vec) :=
  if (i < size rec)%N then Some (set_nth 0 rec i x) else None.

(** [rec[i][:]] read for a Python integer [i]: a negative index counts
    from the end, [rec[-k]] is [rec[len(rec) - k]], and [IndexError] is
    raised outside [-len(rec) .. len(rec) - 1]. *)
Definition getitem_int (rec : seq vec) (i : int) : option vec :=
  match i with
  | Posz n => getitem rec n
  | Negz n =>
      if (n < size rec)%N then Some (nth 0 rec (size rec - n.+1)) else None
  end.

End Ops.
End Numpy.

(** ** The notebook *)

Section Notebook.

Variable F : realFieldType.

(** Grid and model parameters: the notebook's global variables. *)
Variables (J N : nat) (dx dt D_u D_v k0 : F).

Local Notation vec := 'cV[F]_J.

(** *** Reaction kinetics and diffusion numbers *)

Definition f (u v : F) : F := dt * (v * (k0 + (u * u) / (1 + u * u)) - u).
Definition g (u v : F) : F := - f u v.

(** Python's float division raises [ZeroDivisionError] for [dx = 0]; a grid
    has [dx > 0]. *)
Definition sigma_u : F := (D_u * dt) / (2 * dx * dx).
Definition sigma_v : F := (D_v * dt) / (2 * dx * dx).

(** *** Initial condition *)

Variables (no_high : nat) (total_protein : F).

Definition U : vec :=
  Numpy.array J ([seq 1 / 10 | _ <- Numpy.range no_high J]
                 ++ [seq 2 | _ <- Numpy.range 0 no_high]).

Definition V : vec :=
  Numpy.array J [seq (total_protein - dx * Numpy.sum U) / (J%:R * dx)
                | _ <- Numpy.range 0 J].

(** *** Diffusion operators

    The notebook writes the two expressions out once per species, with
    [sigma_u] and with [sigma_v]. *)

Definition A_of (sigma : F) : 'M[F]_J :=
  Numpy.diagflat J [seq - sigma | _ <- Numpy.range 0 (J - 1)] (-1)
  + Numpy.diagflat J ([:: 1 + sigma]
                      ++ [seq 1 + 2 * sigma | _ <- Numpy.range 0 (J - 2)]
                      ++ [:: 1 + sigma]) 0
  + Numpy.diagflat J [seq - sigma | _ <- Numpy.range 0 (J - 1)] 1.

Definition B_of (sigma : F) : 'M[F]_J :=
  Numpy.diagflat J [seq sigma | _ <- Numpy.range 0 (J - 1)] (-1)
  + Numpy.diagflat J ([:: 1 - sigma]
                      ++ [seq 1 - 2 * sigma | _ <- Numpy.range 0 (J - 2)]
                      ++ [:: 1 - sigma]) 0
  + Numpy.diagflat J [seq sigma | _ <- Numpy.range 0 (J - 1)] 1.

Definition A_u := A_of sigma_u.
Definition B_u := B_of sigma_u.
Definition A_v := A_of sigma_v.
Definition B_v := B_of sigma_v.

(** *** Reaction integrators *)

(** The denominator of the kinetics, [numpy.add(1., numpy.multiply(U,U))]. *)
Definition denominator (X : vec) : vec := Numpy.sadd 1 (Numpy.multiply X X).

Definition f_vec_ee (X Y : vec) : option vec :=
  do q <- Numpy.divide (Numpy.multiply X X) (denominator X);
  Some (Numpy.smultiply dt
          (Numpy.subtract (Numpy.multiply Y (Numpy.sadd k0 q)) X)).

(** The lambda [f_vec] local to [f_vec_rk]. *)
Definition f_vec (X Y : vec) : option vec :=
  do q <- Numpy.divide (Numpy.multiply X X) (denominator X);
  Some (Numpy.subtract (Numpy.multiply Y (Numpy.sadd k0 q)) X).

Definition f_vec_rk (X Y : vec) : option vec :=
  do k1 <- f_vec X Y;
  do k2 <- f_vec (X + Numpy.smultiply (dt / 2) k1)
                 (Y - Numpy.smultiply (dt / 2) k1);
  do k3 <- f_vec (X + Numpy.smultiply (dt / 2) k2)
                 (Y - Numpy.smultiply (dt / 2) k2);
  do k4 <- f_vec (X + Numpy.smultiply dt k3) (Y - Numpy.smultiply dt k3);
  Some (Numpy.smultiply (dt / 6)
          (k1 + Numpy.smultiply 2 k2 + Numpy.smultiply 2 k3 + k4)).

(** *** Time stepping *)

Record records := Records {
  U_record_ee : seq vec;
  V_record_ee : seq vec;
  U_record_rk : seq vec;
  V_record_rk : seq vec
}.

(** The right-hand sides of the two linear systems of one step, for the
    reaction integrator [fv] and the previous state [(X, Y)]. *)
Definition rhs_U (fv : vec -> vec -> option vec) (X Y : vec) : option vec :=
  do r <- fv X Y; Some (Numpy.dot B_u X + r).

Definition rhs_V (fv : vec -> vec -> option vec) (X Y : vec) : option vec :=
  do r <- fv X Y; Some (Numpy.dot B_v Y - r).

(** [rU[ti][:] = numpy.linalg.solve(A_u, B_u.dot(rU[ti-1][:]) +
                                      fv(rU[ti-1][:], rV[ti-1][:]))] *)
Definition assign_U fv (rU rV : seq vec) (ti : nat) : option (seq vec) :=
  do X <- Numpy.getitem rU (ti - 1);
  do Y <- Numpy.getitem rV (ti - 1);
  do b <- rhs_U fv X Y;
  do x <- Numpy.solve A_u b;
  Numpy.setitem rU ti x.

(** [rV[ti][:] = numpy.linalg.solve(A_v, B_v.dot(rV[ti-1][:]) -
                                      fv(rU[ti-1][:], rV[ti-1][:]))] *)
Definition assign_V fv (rU rV : seq vec) (ti : nat) : option (seq vec) :=
  do Y <- Numpy.getitem rV (ti - 1);
  do X <- Numpy.getitem rU (ti - 1);
  do b <- rhs_V fv X Y;
  do x <- Numpy.solve A_v b;
  Numpy.setitem rV ti x.

(** The four [numpy.empty] arrays with their row 0 set to the initial
    condition [(U0, V0)]. *)
Definition init_records (junk U0 V0 : vec) : option records :=
  do Uee <- Numpy.setitem (Numpy.empty junk N) 0 U0;
  do Vee <- Numpy.setitem (Numpy.empty junk N) 0 V0;
  do Urk <- Numpy.setitem (Numpy.empty junk N) 0 U0;
  do Vrk <- Numpy.setitem (Numpy.empty junk N) 0 V0;
  Some (Records Uee Vee Urk Vrk).

(** The body of [for ti in range(1,N)]: four assignments in sequence, each
    one reading the records as the previous ones left them. *)
Definition loop_body (r : records) (ti : nat) : option records :=
  do Uee <- assign_U f_vec_ee (U_record_ee r) (V_record_ee r) ti;
  do Vee <- assign_V f_vec_ee Uee (V_record_ee r) ti;
  do Urk <- assign_U f_vec_rk (U_record_rk r) (V_record_rk r) ti;
  do Vrk <- assign_V f_vec_rk Urk (V_record_rk r) ti;
  Some (Records Uee Vee Urk Vrk).

(** The loop stopped after its first [k] iterations, and the whole cell. *)
Definition run_upto (k : nat) (junk U0 V0 : vec) : option records :=
  do r0 <- init_records junk U0 V0;
  foldM loop_body r0 (take k (Numpy.range 1 N)).

Definition run (junk U0 V0 : vec) : option records :=
  do r0 <- init_records junk U0 V0;
  foldM loop_body r0 (Numpy.range 1 N).

(** The protein mass the notebook prints,
    [numpy.sum(numpy.multiply(dx, X) + numpy.multiply(dx, Y))]. *)
Definition protein_mass (X Y : vec) : F :=
  Numpy.sum (Numpy.smultiply dx X + Numpy.smultiply dx Y).

(** *** The specification's reading of the operators and the kinetics *)

(** Entry [(i, j)] of the [J x J] tridiagonal matrix with [dB] on the first
    and last diagonal places, [dI] on the interior ones and [off] on the two
    neighbouring bands. *)
Definition tridiagonal (dB dI off : F) (i j : nat) : F :=
  if i == j then (if (i == 0)%N || (i == J.-1) then dB else dI)
  else if (i.+1 == j) || (j.+1 == i) then off else 0.

(** The unscaled rate [V (k0 + U^2 / (1 + U^2)) - U] and the classical
    Runge-Kutta combination of its four stages, at one grid point. *)
Definition rate (u v : F) : F := v * (k0 + u ^+ 2 / (1 + u ^+ 2)) - u.

Definition rk4 (u v : F) : F :=
  let k1 := rate u v in
  let k2 := rate (u + (dt / 2) * k1) (v - (dt / 2) * k1) in
  let k3 := rate (u + (dt / 2) * k2) (v - (dt / 2) * k2) in
  let k4 := rate (u + dt * k3) (v - dt * k3) in
  dt / 6 * (k1 + 2 * k2 + 2 * k3 + k4).

(** *** Closed forms of the time stepping *)

(** Entry [n] of the trajectory of each variant. *)
Definition entry_ee (r : records) (n : nat) : vec * vec :=
  (nth 0 (U_record_ee r) n, nth 0 (V_record_ee r) n).

Definition entry_rk (r : records) (n : nat) : vec * vec :=
  (nth 0 (U_record_rk r) n, nth 0 (V_record_rk r) n).

(** The reaction contributions as total functions. *)
Definition reaction_ee (X Y : vec) : vec :=
  \col_i (dt * rate (X i 0) (Y i 0)).

Definition reaction_rk (X Y : vec) : vec := \col_i rk4 (X i 0) (Y i 0).

(** One time step with the reaction contribution [rc], as a function of the
    previous state alone, and its [n]-fold iteration from [(U0, V0)]. *)
Definition next (rc : vec -> vec -> vec) (s : vec * vec) : vec * vec :=
  (invmx A_u *m (B_u *m s.1 + rc s.1 s.2),
   invmx A_v *m (B_v *m s.2 - rc s.1 s.2)).

Definition state (rc : vec -> vec -> vec) (U0 V0 : vec) (n : nat)
    : vec * vec :=
  iter n (next rc) (U0, V0).

(** What the specification asks of one time step with the reaction
    integrator [fv]: the contribution [rc] is computed from the previous
    state, added to species U's right-hand side and subtracted from species
    V's, and the new state solves the two linear systems. *)
Definition step_of (fv : vec -> vec -> option vec) (prev cur : vec * vec)
    : Prop :=
  exists rc,
    [/\ fv prev.1 prev.2 = Some rc,
        Numpy.solve A_u (Numpy.dot B_u prev.1 + rc) = Some cur.1,
        Numpy.solve A_v (Numpy.dot B_v prev.2 - rc) = Some cur.2,
        A_u *m cur.1 = B_u *m prev.1 + rc
      & A_v *m cur.2 = B_v *m prev.2 - rc].

(** A record whose first [k] rows are [h 0 .. h (k-1)] and whose other rows
    still hold what [numpy.empty] left there. *)
Definition filled (junk : vec) (h : nat -> vec) (k : nat) : seq vec :=
  mkseq h k ++ nseq (N - k) junk.

Definition records_upto junk U0 V0 (k : nat) : records :=
  Records (filled junk (fun n => (state reaction_ee U0 V0 n).1) k)
          (filled junk (fun n => (state reaction_ee U0 V0 n).2) k)
          (filled junk (fun n => (state reaction_rk U0 V0 n).1) k)
          (filled junk (fun n => (state reaction_rk U0 V0 n).2) k).

End Notebook.

(** ** The grids and the printed protein masses *)

Module Grid.
Section Spacing.

Variable F : realFieldType.

(** [dx = float(L)/float(J-1)] and
    [x_grid = numpy.array([j*dx for j in range(J)])]. *)
Definition dx (L : F) (J : nat) : option F := pydiv L (J%:Z - 1)%:~R.

Definition x_grid (J : nat) (dx : F) : 'cV[F]_J :=
  Numpy.array J [seq j%:R * dx | j <- Numpy.range 0 J].

(** [dt = float(T)/float(N-1)] and
    [t_grid = numpy.array([n*dt for n in range(N)])]. *)
Definition dt (T : F) (N : nat) : option F := pydiv T (N%:Z - 1)%:~R.

Definition t_grid (N : nat) (dt : F) : 'cV[F]_N :=
  Numpy.array N [seq n%:R * dt | n <- Numpy.range 0 N].

End Spacing.
End Grid.

Section Reporting.

Variable F : realFieldType.
Variables (J : nat) (dx : F).

(** The two numbers of the cell "The initial protein mass in our system";
    both lines of the cell read the explicit-Euler records. *)
Definition initial_mass_report (r : records F J) : option (F * F) :=
  do U_ee <- Numpy.getitem_int (U_record_ee r) 0;
  do V_ee <- Numpy.getitem_int (V_record_ee r) 0;
  do U_ee' <- Numpy.getitem_int (U_record_ee r) 0;
  do V_ee' <- Numpy.getitem_int (V_record_ee r) 0;
  Some (protein_mass dx U_ee V_ee, protein_mass dx U_ee' V_ee').

(** The two numbers of the cell printing the mass at steady state, read
    from the last row [[-1]] of the records of each variant. *)
Definition final_mass_report (r : records F J) : option (F * F) :=
  do U_ee <- Numpy.getitem_int (U_record_ee r) (-1);
  do V_ee <- Numpy.getitem_int (V_record_ee r) (-1);
  do U_rk <- Numpy.getitem_int (U_record_rk r) (-1);
  do V_rk <- Numpy.getitem_int (V_record_rk r) (-1);
  Some (protein_mass dx U_ee V_ee, protein_mass dx U_rk V_rk).

End Reporting.

(** ** The experiment of the notebook: its literal constants *)

Module Scenario.
Section Constants.

Variable F : realFieldType.

Definition L : F := 1.
Definition J : nat := 200.
Definition dx : F := L / (J - 1)%:R.

Definition T : F := 500.
Definition N : nat := 1000.
Definition dt : F := T / (N - 1)%:R.

Definition D_v : F := 10 / 100.
Definition D_u : F := 1 / 100 * D_v.
Definition k0 : F := 67 / 1000.
Definition total_protein : F := 226 / 100.
Definition no_high : nat := 10.

Definition U : 'cV[F]_J := U F J no_high.
Definition V : 'cV[F]_J := V J dx no_high total_protein.

End Constants.
End Scenario.

(** ** A small grid, on which the statements below are instantiated *)

Module SmallGrid.

Definition J : nat := 3.
Definition N : nat := 4.
Definition dx : rat := 1 / 2.
Definition dt : rat := 1 / 3.
Definition D_u : rat := 1 / 100.
Definition D_v : rat := 1.
Definition k0 : rat := 67 / 1000.
Definition junk : 'cV[rat]_J := 0.
Definition U0 : 'cV[rat]_J := Numpy.array J [:: 1 / 10; 1 / 10; 2].
Definition V0 : 'cV[rat]_J := Numpy.array J [:: 1; 1; 1].
Definition r : records rat J := records_upto N dx dt D_u D_v k0 junk U0 V0 N.

End SmallGrid.

(** ** Reaction integrators *)

Section ReactionTheory.

Variable F : realFieldType.
Variables (J : nat) (dt k0 : F).

Local Notation vec := 'cV[F]_J.

Lemma denominatorE (X : vec) i : denominator X i 0 = 1 + X i 0 * X i 0.
Proof. by rewrite /denominator /Numpy.sadd /Numpy.multiply !mxE. Qed.

Lemma denominator_ge1 (X : vec) i : 1 <= denominator X i 0.
Proof. by rewrite denominatorE; nra. Qed.

Lemma denominator_neq0 (X : vec) i : denominator X i 0 != 0.
Proof. by apply: lt0r_neq0; apply: lt_le_trans (denominator_ge1 X i). Qed.

Lemma divide_denominator (Z X : vec) :
  Numpy.divide Z (denominator X) = Some (\col_i (Z i 0 / denominator X i 0)).
Proof.
have ok : [forall i, denominator X i 0 != 0].
  by apply/forallP => i; apply: denominator_neq0.
by rewrite /Numpy.divide ok.
Qed.

Lemma f_vecE (X Y : vec) :
  f_vec k0 X Y = Some (\col_i rate k0 (X i 0) (Y i 0)).
Proof.
rewrite /f_vec divide_denominator /=; congr Some; apply/colP => i.
by rewrite /Numpy.subtract /Numpy.multiply /Numpy.sadd !mxE /rate !expr2.
Qed.

Lemma f_vec_eeE (X Y : vec) :
  f_vec_ee dt k0 X Y = Some (\col_i (dt * rate k0 (X i 0) (Y i 0))).
Proof.
rewrite /f_vec_ee divide_denominator /=; congr Some; apply/colP => i.
rewrite /Numpy.smultiply /Numpy.subtract /Numpy.multiply /Numpy.sadd.
by rewrite !mxE /rate !expr2.
Qed.

Lemma f_vec_rkE (X Y : vec) :
  f_vec_rk dt k0 X Y = Some (\col_i rk4 dt k0 (X i 0) (Y i 0)).
Proof.
rewrite /f_vec_rk; do 4!rewrite f_vecE /=.
congr Some; apply/colP => i.
by rewrite /Numpy.smultiply !mxE.
Qed.

(** C3: on every pair of vectors the Runge-Kutta integrator returns, at each
    grid point, [dt/6 * (k1 + 2 k2 + 2 k3 + k4)] for the four stages of
    [rk4], which evaluate the unscaled [rate] at [(U, V)],
    [(U + dt/2 k1, V - dt/2 k1)], [(U + dt/2 k2, V - dt/2 k2)] and
    [(U + dt k3, V - dt k3)]; no [dt] enters a stage evaluation. *)
Theorem f_vec_rk_is_rk4 (X Y : vec) :
  f_vec_rk dt k0 X Y
  = Some (\col_i
            let u := X i 0 in
            let v := Y i 0 in
            let k1 := rate k0 u v in
            let k2 := rate k0 (u + dt / 2 * k1) (v - dt / 2 * k1) in
            let k3 := rate k0 (u + dt / 2 * k2) (v - dt / 2 * k2) in
            let k4 := rate k0 (u + dt * k3) (v - dt * k3) in
            dt / 6 * (k1 + 2 * k2 + 2 * k3 + k4))
  /\ (forall u v : F, rate k0 u v = v * (k0 + u ^+ 2 / (1 + u ^+ 2)) - u).
Proof. by split; first exact: f_vec_rkE. Qed.

(** C4: on every pair of vectors the explicit integrator returns, at each
    grid point, [dt * (V (k0 + U^2 / (1 + U^2)) - U)]; this is [dt] times
    what the Runge-Kutta integrator's rate function [f_vec] returns on the
    same vectors. *)
Theorem f_vec_ee_is_dt_rate (X Y : vec) :
  f_vec_ee dt k0 X Y
  = Some (\col_i (dt * (Y i 0 * (k0 + X i 0 ^+ 2 / (1 + X i 0 ^+ 2)) - X i 0)))
  /\ f_vec_ee dt k0 X Y = omap (Numpy.smultiply dt) (f_vec k0 X Y).
Proof.
split; first by rewrite f_vec_eeE.
rewrite f_vec_eeE f_vecE /=; congr Some; apply/colP => i.
by rewrite /Numpy.smultiply !mxE.
Qed.

(** C10: the denominator [1 + U^2] of the kinetics is at least 1 at every
    grid point of every vector, so the division is defined wherever the
    integrators perform it: [f_vec_ee] returns a vector, each of the four
    stage evaluations of [f_vec_rk] returns a vector, and so does
    [f_vec_rk]. *)
Theorem reaction_total (X Y : vec) :
  (forall (Z : vec) i, 1 <= denominator Z i 0 /\ denominator Z i 0 != 0)
  /\ (forall Z : vec, Numpy.divide (Numpy.multiply Z Z) (denominator Z) <> None)
  /\ (exists r, f_vec_ee dt k0 X Y = Some r)
  /\ (exists k1 k2 k3 k4 r,
        [/\ f_vec k0 X Y = Some k1,
            f_vec k0 (X + Numpy.smultiply (dt / 2) k1)
                     (Y - Numpy.smultiply (dt / 2) k1) = Some k2,
            f_vec k0 (X + Numpy.smultiply (dt / 2) k2)
                     (Y - Numpy.smultiply (dt / 2) k2) = Some k3,
            f_vec k0 (X + Numpy.smultiply dt k3)
                     (Y - Numpy.smultiply dt k3) = Some k4
          & f_vec_rk dt k0 X Y = Some r]).
Proof.
split; first by move=> Z i; rewrite denominator_ge1 denominator_neq0.
split; first by move=> Z; rewrite divide_denominator.
split; first by rewrite f_vec_eeE; eexists.
do 5!eexists; split; try exact: f_vecE.
exact: f_vec_rkE.
Qed.

End ReactionTheory.


(** ** Diffusion operators *)

Section OperatorTheory.

Variable F : realFieldType.
Variable J : nat.
Hypothesis J_ge2 : (1 < J)%N.

(** The three diagonals [numpy.diagflat] is called with. *)
Lemma eqz_sub (i j : nat) : (j%:Z == i%:Z - 1) = (i == j.+1).
Proof. by rewrite eq_sym subr_eq -[1]/(1%:Z) -PoszD addn1. Qed.

Lemma eqz_main (i j : nat) : (j%:Z == i%:Z + 0) = (i == j).
Proof. by rewrite addr0 eq_sym. Qed.

Lemma eqz_super (i j : nat) : (j%:Z == i%:Z + 1) = (j == i.+1).
Proof. by rewrite -[1]/(1%:Z) -PoszD addn1. Qed.

Lemma nth_const (c : F) (a b i : nat) :
  nth 0 [seq c | _ <- Numpy.range a b] i = if (i < b - a)%N then c else 0.
Proof.
case: ltnP => h; first by rewrite (nth_map 0%N) ?size_iota.
by rewrite nth_default // size_map size_iota.
Qed.

Lemma nth_diag (a b : F) (i : nat) :
  (i < J)%N ->
  nth 0 ([:: a] ++ [seq b | _ <- Numpy.range 0 (J - 2)] ++ [:: a]) i
  = if (i == 0)%N || (i == J.-1) then a else b.
Proof.
case: J J_ge2 => [|[|n]] // _; case: i => [|i] //=.
rewrite !ltnS subn2 /= nth_cat size_map size_iota subn0 eqSS => le_in.
case: ltnP => lt_in; first by rewrite nth_const subn0 lt_in ltn_eqF.
have -> : i = n by apply/eqP; rewrite eqn_leq le_in.
by rewrite subnn eqxx.
Qed.

Lemma diagflat_dims (c a b : F) :
  [/\ Numpy.diagflat_dim [seq c | _ <- Numpy.range 0 (J - 1)] (-1) = J,
      Numpy.diagflat_dim
        ([:: a] ++ [seq b | _ <- Numpy.range 0 (J - 2)] ++ [:: a]) 0 = J
    & Numpy.diagflat_dim [seq c | _ <- Numpy.range 0 (J - 1)] 1 = J].
Proof.
rewrite /Numpy.diagflat_dim /= size_cat !size_map !size_iota /= !subn0.
rewrite subn1 subn2 !addn1 ?addn0.
by case: J J_ge2 => [|[|n]].
Qed.

(** The sum of three [diagflat]s both operators are built as. *)
Lemma tridiagE (off dB dI : F) (i j : 'I_J) :
  (Numpy.diagflat J [seq off | _ <- Numpy.range 0 (J - 1)] (-1)
   + Numpy.diagflat J
       ([:: dB] ++ [seq dI | _ <- Numpy.range 0 (J - 2)] ++ [:: dB]) 0
   + Numpy.diagflat J [seq off | _ <- Numpy.range 0 (J - 1)] 1) i j
  = if i == j then (if (i == 0 :> nat) || (i == J.-1 :> nat) then dB else dI)
    else if (i.+1 == j :> nat) || (j.+1 == i :> nat) then off else 0.
Proof.
rewrite !mxE eqz_sub eqz_main eqz_super -val_eqE /= !nth_const subn0.
have lt_pred (a b : nat) : (a < b)%N -> (b < J)%N -> (a < J - 1)%N.
  by move=> ab bJ; rewrite subn1 -ltnS prednK ?(leq_trans _ bJ) // (leq_trans ab) // ltnW.
case: (ltngtP i j) => [ij|ji|eq_ij].
- rewrite (lt_pred _ _ ij (ltn_ord j)) (@ltn_eqF i j.+1 (ltnW ij)).
  by rewrite (@gtn_eqF i j.+1 (ltnW ij)) orbF !add0r [(j == i.+1 :> nat)]eq_sym.
- rewrite (lt_pred _ _ ji (ltn_ord i)) (@ltn_eqF j i.+1 (ltnW ji)).
  by rewrite (@gtn_eqF j i.+1 (ltnW ji)) !addr0 [(j.+1 == i :> nat)]eq_sym.
- rewrite -eq_ij !(@ltn_eqF i i.+1) // add0r addr0.
  exact: nth_diag.
Qed.

Lemma sum_delta (n k : nat) (c : nat -> F) :
  \sum_(i < n) (if (i : nat) == k then c i else 0)
  = if (k < n)%N then c k else 0.
Proof.
elim: n => [|n IH]; first by rewrite big_ord0.
rewrite big_ord_recr /= IH ltnS [(n == k)]eq_sym.
by case: (ltngtP k n) => [_|_|->]; rewrite ?addr0 ?add0r.
Qed.

Lemma sum_delta_succ (n k : nat) (c : nat -> F) :
  \sum_(i < n) (if k == i.+1 then c i else 0)
  = if (0 < k <= n)%N then c k.-1 else 0.
Proof.
case: k => [|k]; first by rewrite big1.
by rewrite /= -(sum_delta n k c); apply: eq_bigr => i _; rewrite eqSS eq_sym.
Qed.

(** Under zero-flux boundaries every column of a diffusion operator sums
    to the same value as an interior column. *)
Lemma tridiag_colsum (off dB dI : F) (j : 'I_J) :
  dB + off = 1 -> dI + 2 * off = 1 ->
  \sum_(i < J)
    (Numpy.diagflat J [seq off | _ <- Numpy.range 0 (J - 1)] (-1)
     + Numpy.diagflat J
         ([:: dB] ++ [seq dI | _ <- Numpy.range 0 (J - 2)] ++ [:: dB]) 0
     + Numpy.diagflat J [seq off | _ <- Numpy.range 0 (J - 1)] 1) i j
  = 1.
Proof.
move=> eB eI.
under eq_bigr => i _ do rewrite !mxE eqz_sub eqz_main eqz_super.
rewrite !big_split /=.
rewrite (sum_delta J j.+1 (fun i => nth 0 _ (minn i j))).
rewrite (sum_delta_succ J j (fun i => nth 0 _ (minn i j))).

rewrite (sum_delta J j (fun i => nth 0 _ (minn i j))).
rewrite ltn_ord minnn nth_diag // (ltnW (ltn_ord j)) andbT.
rewrite (minn_idPr (leqnSn j)) (minn_idPl (leq_pred j)) !nth_const subn0.
case: J J_ge2 j eB eI => [|[|n]] // _ [[|j] /= ltj] eB eI.
  by rewrite addr0 -eB addrC.
rewrite subn1 /= !ltnS in ltj *; rewrite ltj eqSS.
case: (ltngtP j n) ltj => // [lt_jn|eq_jn] _; last by rewrite add0r -eB.
by rewrite -eI; lra.
Qed.

Lemma A_ofE (sigma : F) (i j : 'I_J) :
  A_of J sigma i j
  = tridiagonal J (1 + sigma) (1 + 2 * sigma) (- sigma) i j.
Proof. exact: tridiagE. Qed.

Lemma B_ofE (sigma : F) (i j : 'I_J) :
  B_of J sigma i j = tridiagonal J (1 - sigma) (1 - 2 * sigma) sigma i j.
Proof. exact: tridiagE. Qed.

Lemma A_of_colsum (sigma : F) (j : 'I_J) : \sum_(i < J) A_of J sigma i j = 1.
Proof. by apply: tridiag_colsum; lra. Qed.

Lemma B_of_colsum (sigma : F) (j : 'I_J) : \sum_(i < J) B_of J sigma i j = 1.
Proof. by apply: tridiag_colsum; lra. Qed.

Lemma A_of_offdiag (sigma : F) (i j : 'I_J) :
  0 <= sigma -> i != j -> A_of J sigma i j <= 0.
Proof.
move=> s0; rewrite -val_eqE /= => /negPf ij; rewrite A_ofE /tridiagonal ij.
by case: ifP => _ //; lra.
Qed.

(** A matrix whose columns sum to 1 and whose off-diagonal entries are not
    positive is strictly diagonally dominant by columns, hence invertible. *)
Lemma colsum1_unitmx (n : nat) (M : 'M[F]_n) :
  (forall j, \sum_i M i j = 1) ->
  (forall i j, i != j -> M i j <= 0) ->
  M \in unitmx.
Proof.
move=> sum1 off; rewrite -row_free_unit; apply: inj_row_free => v vM0.
apply/rowP => j; rewrite [RHS]mxE.
case: (arg_maxP (fun i => `|v 0 i|) (erefl (xpredT j))) => j0 _ max.
have: (v *m M) 0 j0 = 0 by rewrite vM0 mxE.
rewrite mxE (bigD1 j0) //= => /eqP; rewrite addr_eq0 => /eqP e.
have dg : M j0 j0 = 1 - \sum_(i < n | i != j0) M i j0.
  by rewrite -(sum1 j0) (bigD1 j0) //= addrK.
have dg1 : 1 <= M j0 j0.
  by rewrite dg lerDl oppr_ge0; apply: sumr_le0 => i ij; exact: off.
have le1 : `|v 0 j0| * M j0 j0 <= `|v 0 j0| * (M j0 j0 - 1).
  have -> : `|v 0 j0| * M j0 j0 = `|v 0 j0 * M j0 j0|.
    by rewrite normrM [`|M _ _|]ger0_norm //; lra.
  rewrite e normrN (le_trans (ler_norm_sum _ _ _)) //.
  have -> : M j0 j0 - 1 = \sum_(i < n | i != j0) (- M i j0).
    by rewrite sumrN dg; lra.
  rewrite mulr_sumr; apply: ler_sum => i ij.
  rewrite normrM (ler0_norm (off _ _ ij)).
  by apply: ler_wpM2r; [rewrite oppr_ge0 off | exact: max].
have z : `|v 0 j0| <= 0 by nra.
by apply/eqP; rewrite -normr_le0; exact: le_trans (max j isT) z.
Qed.

Lemma A_of_unitmx (sigma : F) : 0 <= sigma -> A_of J sigma \in unitmx.
Proof.
move=> s0; apply: colsum1_unitmx; first exact: A_of_colsum.
by move=> i j; exact: A_of_offdiag.
Qed.

(** Multiplying by a matrix whose columns sum to 1 keeps the sum of a
    vector. *)
Lemma sum_dot (M : 'M[F]_J) (x : 'cV[F]_J) :
  (forall j, \sum_i M i j = 1) -> Numpy.sum (Numpy.dot M x) = Numpy.sum x.
Proof.
move=> sum1; rewrite /Numpy.sum /Numpy.dot.
under eq_bigr => i _ do rewrite mxE.
rewrite exchange_big /=; apply: eq_bigr => j _.
by rewrite -mulr_suml sum1 mul1r.
Qed.

Lemma solveE (M : 'M[F]_J) (b : 'cV[F]_J) :
  M \in unitmx -> Numpy.solve M b = Some (invmx M *m b).
Proof. by rewrite /Numpy.solve => ->. Qed.

Lemma solve_sound (M : 'M[F]_J) (b x : 'cV[F]_J) :
  Numpy.solve M b = Some x -> M \in unitmx /\ M *m x = b.
Proof.
by rewrite /Numpy.solve; case: ifP => // Mu [<-]; rewrite mulKVmx.
Qed.

Lemma sigma_ge0 (dx dt D : F) : 0 <= D -> 0 <= dt -> 0 <= sigma_u dx dt D.
Proof.
move=> D0 t0; rewrite /sigma_u; apply: divr_ge0; first exact: mulr_ge0.
by rewrite -mulrA; apply: mulr_ge0 => //; rewrite -expr2 sqr_ge0.
Qed.

Lemma sigma_v_ge0 (dx dt D : F) : 0 <= D -> 0 <= dt -> 0 <= sigma_v dx dt D.
Proof. exact: sigma_ge0. Qed.

(** C2: for each species the diffusion number is [D dt / (2 dx^2)], and the
    builder's two matrices are [J x J] and tridiagonal: the implicit one
    has [1 + 2 sigma] on the interior of the diagonal, [1 + sigma] at its
    first and last place and [- sigma] on both neighbouring bands, the
    explicit one [1 - 2 sigma], [1 - sigma] and [sigma]. *)
Theorem operator_builder (dx dt D_u D_v : F) :
  let su := sigma_u dx dt D_u in
  let sv := sigma_v dx dt D_v in
  [/\ su = D_u * dt / (2 * dx ^+ 2) /\ sv = D_v * dt / (2 * dx ^+ 2),
      forall i j : 'I_J,
        A_u J dx dt D_u i j = tridiagonal J (1 + su) (1 + 2 * su) (- su) i j
        /\ B_u J dx dt D_u i j = tridiagonal J (1 - su) (1 - 2 * su) su i j,
      forall i j : 'I_J,
        A_v J dx dt D_v i j = tridiagonal J (1 + sv) (1 + 2 * sv) (- sv) i j
        /\ B_v J dx dt D_v i j = tridiagonal J (1 - sv) (1 - 2 * sv) sv i j
    & forall c a b : F,
        [/\ Numpy.diagflat_dim [seq c | _ <- Numpy.range 0 (J - 1)] (-1) = J,
            Numpy.diagflat_dim
              ([:: a] ++ [seq b | _ <- Numpy.range 0 (J - 2)] ++ [:: a]) 0 = J
          & Numpy.diagflat_dim [seq c | _ <- Numpy.range 0 (J - 1)] 1 = J]].
Proof.
split; last exact: diagflat_dims.
- by rewrite /sigma_u /sigma_v expr2 !mulrA.
- by move=> i j; rewrite /A_u /B_u A_ofE B_ofE.
- by move=> i j; rewrite /A_v /B_v A_ofE B_ofE.
Qed.

(** C8: for every [sigma >= 0] the implicit operator is invertible, so
    [numpy.linalg.solve] returns the solution of the system for every
    right-hand side; this covers the operators of both species on every
    grid with non-negative diffusion coefficients. *)
Theorem implicit_operator_invertible (sigma : F) :
  0 <= sigma ->
  [/\ A_of J sigma \in unitmx,
      forall b : 'cV[F]_J,
        exists2 x, Numpy.solve (A_of J sigma) b = Some x
                 & A_of J sigma *m x = b
    & forall dx dt D : F, 0 <= D -> 0 <= dt ->
        A_u J dx dt D \in unitmx /\ A_v J dx dt D \in unitmx].
Proof.
move=> s0; have uA := A_of_unitmx s0; split=> //.
  by move=> b; exists (invmx (A_of J sigma) *m b); rewrite ?solveE ?mulKVmx.
by move=> dx dt D D0 t0; split; apply: A_of_unitmx; exact: sigma_ge0.
Qed.

End OperatorTheory.

(** ** The embedding on small inputs *)

Section Examples.
Variable F : realFieldType.

(** The example of numpy's documentation:
    [diagflat([1,2], 1) = [[0,1,0],[0,0,2],[0,0,0]]]. *)
Example diagflat_super :
  Numpy.diagflat 3 [:: (1 : F); 2] 1
  = \matrix_(i, j) nth 0 (nth [::] [:: [:: 0; 1; 0]; [:: 0; 0; 2]; [:: 0; 0; 0]] i) j.
Proof.
apply/matrixP => i j; rewrite !mxE eqz_super.
by case: i j => [[|[|[|i]]] // _] [[|[|[|j]]] // _].
Qed.

(** The implicit operator on three grid points. *)
Example A_of_3 (sigma : F) :
  A_of 3 sigma
  = \matrix_(i, j)
      nth 0 (nth [::] [:: [:: 1 + sigma; - sigma; 0];
                          [:: - sigma; 1 + 2 * sigma; - sigma];
                          [:: 0; - sigma; 1 + sigma]] i) j.
Proof.
apply/matrixP => i j; rewrite (@A_ofE _ 3 isT) mxE /tridiagonal.
by case: i j => [[|[|[|i]]] // _] [[|[|[|j]]] // _].
Qed.

(** One grid point with [U = 1], [V = 2], [k0 = 0] and [dt = 1]:
    [1 * (2 * (0 + 1/2) - 1) = 0]. *)
Example f_vec_ee_point :
  f_vec_ee 1 0 (Numpy.array 1 [:: (1 : F)]) (Numpy.array 1 [:: 2])
  = Some (Numpy.array 1 [:: 0]).
Proof.
rewrite f_vec_eeE; congr Some; apply/colP => i.
rewrite !mxE /rate; case: i => [[|i] // _] /=.
by field.
Qed.

End Examples.

(** ** Time stepping *)

Section LoopTheory.

Variable F : realFieldType.
Variables (J N : nat) (dx dt D_u D_v k0 : F).
Variables (junk U0 V0 : 'cV[F]_J).

Local Notation vec := 'cV[F]_J.
Local Notation Au := (A_u J dx dt D_u).
Local Notation Bu := (B_u J dx dt D_u).
Local Notation Av := (A_v J dx dt D_v).
Local Notation Bv := (B_v J dx dt D_v).
Local Notation fee := (f_vec_ee dt k0).
Local Notation frk := (f_vec_rk dt k0).
Local Notation ree := (reaction_ee dt k0).
Local Notation rrk := (reaction_rk dt k0).
Local Notation st rc := (state dx dt D_u D_v rc U0 V0).
Local Notation fill := (filled N junk).
Local Notation upto := (records_upto N dx dt D_u D_v k0 junk U0 V0).

Lemma foldM_rcons (S T : Type) (body : S -> T -> option S) s l x :
  foldM body s (rcons l x) = (do s' <- foldM body s l; body s' x).
Proof.
elim: l s => [|y l IH] s /=; first by case: (body s x).
by case: (body s y) => //=.
Qed.

Lemma size_filled (h : nat -> vec) k : (k <= N)%N -> size (fill h k) = N.
Proof. by move=> kN; rewrite size_cat size_mkseq size_nseq subnKC. Qed.

Lemma nth_filled (h : nat -> vec) k i :
  (i < k)%N -> nth 0 (fill h k) i = h i.
Proof. by move=> ik; rewrite nth_cat size_mkseq ik nth_mkseq. Qed.

Lemma set_nth_filled (h : nat -> vec) k :
  (k < N)%N -> set_nth 0 (fill h k) k (h k) = fill h k.+1.
Proof.
move=> kN; apply: (@eq_from_nth _ 0).
  by rewrite size_set_nth !size_filled // 1?ltnW //; apply/maxn_idPr.
move=> i _; rewrite nth_set_nth /= !nth_cat !size_mkseq ltnS.
case: (ltngtP i k) => [ik|ki|->]; rewrite ?eqxx.
- by rewrite !nth_mkseq // ltnW.
- by rewrite !nth_nseq !ltn_sub2rE // ltnW.
- by rewrite nth_mkseq.
Qed.

Lemma getitem_filled (h : nat -> vec) k i :
  (i < k)%N -> (k <= N)%N -> Numpy.getitem (fill h k) i = Some (h i).
Proof.
move=> ik kN.
by rewrite /Numpy.getitem size_filled // (leq_trans ik kN) nth_filled.
Qed.

Lemma setitem_filled (h : nat -> vec) k :
  (k < N)%N -> Numpy.setitem (fill h k) k (h k) = Some (fill h k.+1).
Proof.
by move=> kN; rewrite /Numpy.setitem (size_filled _ (ltnW kN)) kN set_nth_filled.
Qed.

Lemma stateS rc n :
  st rc n.+1 = next dx dt D_u D_v rc (st rc n).
Proof. by []. Qed.

Lemma assign_U_filled (fv : vec -> vec -> option vec) rc k :
  (forall X Y, fv X Y = Some (rc X Y)) -> (0 < k < N)%N ->
  assign_U dx dt D_u fv (fill (fun n => (st rc n).1) k)
                        (fill (fun n => (st rc n).2) k) k
  = if Au \in unitmx then Some (fill (fun n => (st rc n).1) k.+1) else None.
Proof.
case: k => [|k] // fvE /andP [_ kN]; rewrite /assign_U subn1 /=.
rewrite !getitem_filled //= 1?ltnW // /rhs_U fvE /= /Numpy.solve.
case: ifP => //= _.
by rewrite -(setitem_filled (fun n => (st rc n).1) kN).
Qed.

Lemma assign_V_filled (fv : vec -> vec -> option vec) rc k :
  (forall X Y, fv X Y = Some (rc X Y)) -> (0 < k < N)%N ->
  assign_V dx dt D_v fv (fill (fun n => (st rc n).1) k.+1)
                        (fill (fun n => (st rc n).2) k) k
  = if Av \in unitmx then Some (fill (fun n => (st rc n).2) k.+1) else None.
Proof.
case: k => [|k] // fvE /andP [_ kN]; rewrite /assign_V subn1 /=.
rewrite !getitem_filled //= 1?ltnW // /rhs_V fvE /= /Numpy.solve.
case: ifP => //= _.
by rewrite -(setitem_filled (fun n => (st rc n).2) kN).
Qed.

Lemma f_vec_ee_reaction (X Y : vec) : fee X Y = Some (ree X Y).
Proof. exact: f_vec_eeE. Qed.

Lemma f_vec_rk_reaction (X Y : vec) : frk X Y = Some (rrk X Y).
Proof. exact: f_vec_rkE. Qed.

Lemma loop_body_upto k :
  (0 < k < N)%N ->
  loop_body dx dt D_u D_v k0 (upto k) k
  = if (Au \in unitmx) && (Av \in unitmx) then Some (upto k.+1) else None.
Proof.
move=> kN; rewrite /loop_body /records_upto /=.
rewrite (assign_U_filled f_vec_ee_reaction kN); case: ifP => //= uA.
rewrite (assign_V_filled f_vec_ee_reaction kN); case: ifP => //= uV.
rewrite (assign_U_filled f_vec_rk_reaction kN) uA /=.
by rewrite (assign_V_filled f_vec_rk_reaction kN) uV.
Qed.

Lemma setitem_empty (h : nat -> vec) :
  (0 < N)%N -> Numpy.setitem (Numpy.empty junk N) 0 (h 0%N) = Some (fill h 1).
Proof. by move=> N0; rewrite -(setitem_filled h N0) /filled subn0. Qed.

Lemma init_recordsE :
  (0 < N)%N -> init_records N junk U0 V0 = Some (upto 1).
Proof.
move=> N0; rewrite /init_records /records_upto.
rewrite (setitem_empty (fun n => (st ree n).1) N0) /=.
by rewrite (setitem_empty (fun n => (st ree n).2) N0).
Qed.

Lemma init_records_none : N = 0%N -> init_records N junk U0 V0 = None.
Proof. by move=> ->. Qed.

Lemma take_range k :
  (k < N)%N -> take k (Numpy.range 1 N) = iota 1 k.
Proof.
move=> kN; rewrite /Numpy.range take_iota; congr iota.
by apply/minn_idPl; rewrite subn1 -ltnS prednK // (leq_trans _ kN).
Qed.

Lemma run_uptoS k :
  (k.+1 < N)%N ->
  run_upto N dx dt D_u D_v k0 k.+1 junk U0 V0
  = (do r <- run_upto N dx dt D_u D_v k0 k junk U0 V0;
     loop_body dx dt D_u D_v k0 r k.+1).
Proof.
move=> kN; rewrite /run_upto !take_range // 1?ltnW //.
have -> : iota 1 k.+1 = rcons (iota 1 k) k.+1.
  by rewrite -{1}(addn1 k) iotaD add1n cats1.

by case: (init_records _ _ _ _) => [r0|] //; rewrite [LHS]foldM_rcons.
Qed.

Lemma run_uptoE k :
  Au \in unitmx -> Av \in unitmx -> (k < N)%N ->
  run_upto N dx dt D_u D_v k0 k junk U0 V0 = Some (upto k.+1).
Proof.
move=> uA uV; elim: k => [|k IH] kN.
  by rewrite /run_upto take0 init_recordsE ?(leq_trans _ kN).
by rewrite run_uptoS // IH 1?ltnW //= loop_body_upto ?kN // uA uV.
Qed.

Lemma run_upto_all :
  run N dx dt D_u D_v k0 junk U0 V0
  = run_upto N dx dt D_u D_v k0 N.-1 junk U0 V0.
Proof.
rewrite /run /run_upto take_oversize //.
by rewrite /Numpy.range size_iota subn1.
Qed.

Lemma runE :
  Au \in unitmx -> Av \in unitmx -> (0 < N)%N ->
  run N dx dt D_u D_v k0 junk U0 V0 = Some (upto N).
Proof.
by move=> uA uV N0; rewrite run_upto_all run_uptoE ?prednK.
Qed.

(** When the loop body runs at all, a successful run has solved with both
    implicit operators. *)
Lemma run_unitmx r :
  (1 < N)%N -> run N dx dt D_u D_v k0 junk U0 V0 = Some r ->
  Au \in unitmx /\ Av \in unitmx.
Proof.
move=> N1; rewrite /run init_recordsE 1?ltnW //= /Numpy.range.
have -> : (N - 1 = (N - 2).+1)%N by rewrite subn2 subn1 prednK // -subn1 subn_gt0.
rewrite /= loop_body_upto ?N1 //.
by case: (Au \in unitmx); case: (Av \in unitmx).
Qed.

Lemma run_closed r :
  run N dx dt D_u D_v k0 junk U0 V0 = Some r -> r = upto N.
Proof.
case: N (@run_unitmx r) (@runE) (@init_recordsE) => [|[|n]] unit_r run_e init_e.
- by [].
- by rewrite /run init_e //= => -[].
- move=> run_r; have [uA uV] := unit_r isT run_r.
  by move: run_r; rewrite run_e // => -[].
Qed.

Lemma size_upto k :
  (k <= N)%N ->
  [/\ size (U_record_ee (upto k)) = N, size (V_record_ee (upto k)) = N,
      size (U_record_rk (upto k)) = N & size (V_record_rk (upto k)) = N].
Proof. by move=> kN; split; rewrite /= size_filled. Qed.

Lemma entry_ee_upto k n :
  (n < k)%N -> entry_ee (upto k) n = st ree n.
Proof.
by move=> nk; rewrite /entry_ee /= !nth_filled //; case: (st ree n).
Qed.

Lemma entry_rk_upto k n :
  (n < k)%N -> entry_rk (upto k) n = st rrk n.
Proof.
by move=> nk; rewrite /entry_rk /= !nth_filled //; case: (st rrk n).
Qed.

Lemma filled_take (h : nat -> vec) k :
  (k <= N)%N -> fill h k = take k (fill h N) ++ nseq (N - k) junk.
Proof.
move=> kN; rewrite /filled subnn cats0 /mkseq -map_take take_iota.
by rewrite (minn_idPl kN).
Qed.

End LoopTheory.

(** ** The trajectory *)

Section TrajectoryTheory.

Variable F : realFieldType.
Variables (J N : nat) (dx dt D_u D_v k0 : F).
Variables (junk U0 V0 : 'cV[F]_J).

Local Notation vec := 'cV[F]_J.
Local Notation Au := (A_u J dx dt D_u).
Local Notation Bu := (B_u J dx dt D_u).
Local Notation Av := (A_v J dx dt D_v).
Local Notation Bv := (B_v J dx dt D_v).
Local Notation fee := (f_vec_ee dt k0).
Local Notation frk := (f_vec_rk dt k0).
Local Notation ree := (reaction_ee dt k0).
Local Notation rrk := (reaction_rk dt k0).
Local Notation nxt := (next dx dt D_u D_v).
Local Notation st rc := (state dx dt D_u D_v rc U0 V0).
Local Notation upto := (records_upto N dx dt D_u D_v k0 junk U0 V0).
Local Notation the_run := (run N dx dt D_u D_v k0 junk U0 V0).
Local Notation stepof := (step_of dx dt D_u D_v).
Local Notation mass s := (protein_mass dx s.1 s.2).

Lemma next_solves rc (s : vec * vec) :
  Au \in unitmx -> Av \in unitmx ->
  Au *m (nxt rc s).1 = Bu *m s.1 + rc s.1 s.2
  /\ Av *m (nxt rc s).2 = Bv *m s.2 - rc s.1 s.2.
Proof. by move=> uA uV; rewrite /next /= !mulKVmx. Qed.

Lemma next_step_of (fv : vec -> vec -> option vec) rc (s : vec * vec) :
  (forall X Y, fv X Y = Some (rc X Y)) ->
  Au \in unitmx -> Av \in unitmx -> stepof fv s (nxt rc s).
Proof.
move=> fvE uA uV; have [eU eV] := next_solves rc s uA uV.
by exists (rc s.1 s.2); split; rewrite ?fvE ?solveE.
Qed.

(** A successful run with at least one step: its entries are the iterates
    of [next], and both solves went through. *)
Lemma run_entries r n :
  the_run = Some r -> (0 < n < N)%N ->
  (Au \in unitmx /\ Av \in unitmx)
  /\ [/\ entry_ee r n.-1 = st ree n.-1, entry_ee r n = nxt ree (st ree n.-1),
         entry_rk r n.-1 = st rrk n.-1 & entry_rk r n = nxt rrk (st rrk n.-1)].
Proof.
move=> run_r /andP [n0 nN].
have N1 : (1 < N)%N by exact: leq_ltn_trans n0 nN.
have [uA uV] := run_unitmx N1 run_r; rewrite (run_closed run_r).
have pN : (n.-1 < N)%N by rewrite prednK // ltnW.
by do 2!split; rewrite // ?entry_ee_upto ?entry_rk_upto // -[in LHS](prednK n0).
Qed.

Lemma run_entry0 r :
  the_run = Some r -> entry_ee r 0 = (U0, V0) /\ entry_rk r 0 = (U0, V0).
Proof.
move=> run_r; rewrite (run_closed run_r).
by case: N run_r => [|n].
Qed.

Lemma sumD (a b : vec) : Numpy.sum (a + b) = Numpy.sum a + Numpy.sum b.
Proof.
by rewrite /Numpy.sum -big_split; apply: eq_bigr => i _; rewrite mxE.
Qed.

Lemma sumB (a b : vec) : Numpy.sum (a - b) = Numpy.sum a - Numpy.sum b.
Proof.
rewrite /Numpy.sum -sumrB; apply: eq_bigr => i _.
by rewrite !mxE.
Qed.

Lemma protein_massE (X Y : vec) :
  protein_mass dx X Y = \sum_j (X j 0 + Y j 0) * dx.
Proof.
rewrite /protein_mass /Numpy.sum; apply: eq_bigr => j _.
by rewrite /Numpy.smultiply !mxE; ring.
Qed.

Lemma protein_mass_sum (X Y : vec) :
  protein_mass dx X Y = (Numpy.sum X + Numpy.sum Y) * dx.
Proof.
by rewrite protein_massE /Numpy.sum -big_split /= mulr_suml.
Qed.

(** C1: in a run that returns the records [r], every time step
    [n = 1 .. N-1] of either variant takes the previous entry [(U, V)],
    computes the reaction contribution [rc], and stores the solutions of
    [A_u U' = B_u U + rc] and [A_v V' = B_v V - rc]; the new entry is the
    function [next] of the previous entry, whose other inputs are the
    operators and parameters only. *)
Theorem step_recurrence (r : records F J) (n : nat) :
  the_run = Some r -> (0 < n < N)%N ->
  [/\ stepof fee (entry_ee r n.-1) (entry_ee r n),
      stepof frk (entry_rk r n.-1) (entry_rk r n),
      entry_ee r n = nxt ree (entry_ee r n.-1)
    & entry_rk r n = nxt rrk (entry_rk r n.-1)].
Proof.
move=> run_r n_in; have [[uA uV] [-> -> -> ->]] := run_entries run_r n_in.
split=> //; first exact: (next_step_of _ (@f_vec_ee_reaction _ _ dt k0) uA uV).
exact: (next_step_of _ (@f_vec_rk_reaction _ _ dt k0) uA uV).
Qed.

(** C6: the reaction contribution subtracted in species V's right-hand
    side is the negation of the one added in species U's, at every grid
    point: for the scalar kinetics [g = - f], for the two right-hand sides
    formed from one state by any integrator, and along a run that returns
    the records [r], for both variants at every step. *)
Theorem reaction_antisymmetric (r : records F J) :
  the_run = Some r ->
  [/\ forall u v : F, g dt k0 u v = - f dt k0 u v,
      forall (fv : vec -> vec -> option vec) (X Y bU bV : vec),
        rhs_U dx dt D_u fv X Y = Some bU ->
        rhs_V dx dt D_v fv X Y = Some bV ->
        forall j, (bV - Numpy.dot Bv Y) j 0 = - (bU - Numpy.dot Bu X) j 0,
      forall n j, (0 < n < N)%N ->
        (Av *m (entry_ee r n).2 - Bv *m (entry_ee r n.-1).2) j 0
        = - (Au *m (entry_ee r n).1 - Bu *m (entry_ee r n.-1).1) j 0
    & forall n j, (0 < n < N)%N ->
        (Av *m (entry_rk r n).2 - Bv *m (entry_rk r n.-1).2) j 0
        = - (Au *m (entry_rk r n).1 - Bu *m (entry_rk r n.-1).1) j 0].
Proof.
move=> run_r; split=> //.
- move=> fv X Y bU bV; rewrite /rhs_U /rhs_V.
  case: (fv X Y) => //= rc [<-] [<-] j.
  by rewrite !mxE; ring.
- move=> n j n_in; have [[uA uV] [-> -> _ _]] := run_entries run_r n_in.
  have [-> ->] := next_solves ree (st ree n.-1) uA uV.
  by rewrite !mxE; ring.
- move=> n j n_in; have [[uA uV] [_ _ -> ->]] := run_entries run_r n_in.
  have [-> ->] := next_solves rrk (st rrk n.-1) uA uV.
  by rewrite !mxE; ring.
Qed.

Section Conservation.

Hypothesis J_ge2 : (1 < J)%N.

Lemma operator_colsums :
  [/\ forall j, \sum_i Au i j = 1, forall j, \sum_i Bu i j = 1,
      forall j, \sum_i Av i j = 1 & forall j, \sum_i Bv i j = 1].
Proof.
by split=> j; [exact: A_of_colsum | exact: B_of_colsum
              | exact: A_of_colsum | exact: B_of_colsum].
Qed.

Lemma next_mass rc (s : vec * vec) :
  Au \in unitmx -> Av \in unitmx -> mass (nxt rc s) = mass s.
Proof.
move=> uA uV; have [eU eV] := next_solves rc s uA uV.
have [cAu cBu cAv cBv] := operator_colsums.
rewrite !protein_mass_sum; congr (_ * _).
rewrite -(sum_dot (nxt rc s).1 cAu) -(sum_dot (nxt rc s).2 cAv).
rewrite /Numpy.dot eU eV sumD sumB -[Bu *m _]/(Numpy.dot Bu _).
rewrite -[Bv *m _]/(Numpy.dot Bv _) !sum_dot //.
by ring.
Qed.

Lemma state_mass rc n :
  Au \in unitmx -> Av \in unitmx -> mass (st rc n) = protein_mass dx U0 V0.
Proof.
by move=> uA uV; elim: n => [|n IH] //; rewrite stateS next_mass.
Qed.

(** C5: along a run that returns the records [r], the discrete mass
    [sum_j (U_j + V_j) dx] after each step equals the mass before it, for
    both variants, so every entry has the mass of the initial condition;
    the columns of the four operators all sum to 1. *)
Theorem mass_conserved (r : records F J) :
  the_run = Some r ->
  [/\ forall n, (0 < n < N)%N ->
        mass (entry_ee r n) = mass (entry_ee r n.-1)
        /\ mass (entry_rk r n) = mass (entry_rk r n.-1),
      forall n, (n < N)%N ->
        mass (entry_ee r n) = protein_mass dx U0 V0
        /\ mass (entry_rk r n) = protein_mass dx U0 V0,
      forall X Y : vec, protein_mass dx X Y = \sum_j (X j 0 + Y j 0) * dx
    & [/\ forall j, \sum_i Au i j = 1, forall j, \sum_i Bu i j = 1,
          forall j, \sum_i Av i j = 1 & forall j, \sum_i Bv i j = 1]].
Proof.
move=> run_r.
have step n : (0 < n < N)%N ->
    mass (entry_ee r n) = mass (entry_ee r n.-1)
    /\ mass (entry_rk r n) = mass (entry_rk r n.-1).
  move=> n_in; have [[uA uV] [-> -> -> ->]] := run_entries run_r n_in.
  by rewrite !next_mass.
split=> //; [|exact: protein_massE|exact: operator_colsums].
elim=> [|n IH] nN; first by have [-> ->] := run_entry0 run_r.
have [-> ->] := step n.+1 nN.
by apply: IH; exact: ltnW.
Qed.

(** C9: on a grid with [J >= 2] and [N >= 1] and with non-negative
    diffusion numbers the run returns records [r] of exactly [N] entries
    each; entry 0 is the initial condition, entry [n] is one step from
    entry [n-1], and after [k] loop iterations exactly the entries
    [0 .. k] are in place, the rows after them still untouched. *)
Theorem trajectory_record :
  (0 < N)%N -> 0 <= sigma_u dx dt D_u -> 0 <= sigma_v dx dt D_v ->
  exists r : records F J,
    [/\ the_run = Some r,
        [/\ size (U_record_ee r) = N, size (V_record_ee r) = N,
            size (U_record_rk r) = N & size (V_record_rk r) = N],
        entry_ee r 0 = (U0, V0) /\ entry_rk r 0 = (U0, V0),
        forall n, (0 < n < N)%N ->
          entry_ee r n = nxt ree (entry_ee r n.-1)
          /\ entry_rk r n = nxt rrk (entry_rk r n.-1)
      & forall k, (k < N)%N ->
          run_upto N dx dt D_u D_v k0 k junk U0 V0
          = Some (Records
                    (take k.+1 (U_record_ee r) ++ nseq (N - k.+1) junk)
                    (take k.+1 (V_record_ee r) ++ nseq (N - k.+1) junk)
                    (take k.+1 (U_record_rk r) ++ nseq (N - k.+1) junk)
                    (take k.+1 (V_record_rk r) ++ nseq (N - k.+1) junk))].
Proof.
move=> N0 su sv.
have uA : Au \in unitmx by exact: A_of_unitmx.
have uV : Av \in unitmx by exact: A_of_unitmx.
have run_r := runE k0 junk U0 V0 uA uV N0.
exists (upto N); split=> //.
- exact: size_upto.
- exact: run_entry0 run_r.
- by move=> n n_in; have [_ [-> -> -> ->]] := run_entries run_r n_in.
- by move=> k kN; rewrite run_uptoE //= -!filled_take.
Qed.

End Conservation.

End TrajectoryTheory.

(** ** The initial condition *)

Section InitialTheory.

Variable F : realFieldType.

(** [V] is constant, and chosen so that the mass is [total_protein]. *)
Lemma V_const (J no_high : nat) (dx total_protein : F) (j : 'I_J) :
  V J dx no_high total_protein j 0
  = (total_protein - dx * Numpy.sum (U F J no_high)) / (J%:R * dx).
Proof. by rewrite /V /Numpy.array mxE nth_const subn0 ltn_ord. Qed.

Lemma initial_mass (J no_high : nat) (dx total_protein : F) :
  J%:R * dx != 0 ->
  protein_mass dx (U F J no_high) (V J dx no_high total_protein)
  = total_protein.
Proof.
move=> nz; rewrite protein_mass_sum.
have -> : Numpy.sum (V J dx no_high total_protein)
          = J%:R * ((total_protein - dx * Numpy.sum (U F J no_high))
                    / (J%:R * dx)).
  rewrite {1}/Numpy.sum (eq_bigr _ (fun j _ => V_const no_high dx _ j)).
  by rewrite sumr_const card_ord -mulr_natl.
move: nz; rewrite mulf_eq0 negb_or => /andP [nzJ nzdx].
by field; rewrite nzJ nzdx.
Qed.

Lemma scenario_U (i : 'I_Scenario.J) :
  Scenario.U F i 0 = if (i < 190)%N then 1 / 10 else 2.
Proof.
rewrite /Scenario.U /U /Numpy.array mxE nth_cat size_map size_iota.
rewrite -[(Scenario.J - Scenario.no_high)%N]/190%N.
case: ltnP => i190; first by rewrite nth_const i190.
rewrite nth_const subn0 /Scenario.no_high.
by rewrite ltn_subLR // -[(190 + 10)%N]/Scenario.J ltn_ord.
Qed.

(** C7, as the notebook has it: in the experiment ([J = 200], total mass
    2.26) the list the initial [U] is built from has [J] entries; [U] is
    0.1 on the first 190 grid points and 2.0 on the last 10; [V] is the
    constant for which the initial discrete mass [sum_j (U_j + V_j) dx] is
    2.26. *)
Theorem initial_condition :
  [/\ size ([seq (1 / 10 : F) | _ <- Numpy.range Scenario.no_high Scenario.J]
            ++ [seq 2 | _ <- Numpy.range 0 Scenario.no_high]) = Scenario.J,
      forall i : 'I_Scenario.J,
        Scenario.U F i 0 = if (i < 190)%N then 1 / 10 else 2,
      forall i : 'I_Scenario.J,
        Scenario.V F i 0
        = (Scenario.total_protein F
           - Scenario.dx F * Numpy.sum (Scenario.U F))
          / (Scenario.J%:R * Scenario.dx F),
      protein_mass (Scenario.dx F) (Scenario.U F) (Scenario.V F) = 226 / 100
    & \sum_j (Scenario.U F j 0 + Scenario.V F j 0) * Scenario.dx F
      = 226 / 100].
Proof.
have nz : Scenario.J%:R * Scenario.dx F != 0.
  rewrite /Scenario.dx /Scenario.L -[(Scenario.J - 1)%N]/199%N.
  by rewrite mulf_neq0 // ?invr_neq0 ?mul1r ?invr_neq0 ?pnatr_eq0.
split.
- by rewrite size_cat !size_map !size_iota.
- exact: scenario_U.
- by move=> i; rewrite /Scenario.V V_const.
- by rewrite /Scenario.V /Scenario.U initial_mass.
- by rewrite -protein_massE /Scenario.V /Scenario.U initial_mass.
Qed.

End InitialTheory.

(** The high plateau of the initial [U] is not at the first grid points:
    at grid point 0 the value is 0.1. *)
Lemma initial_U_low_at_first_points :
  ~ (forall i : 'I_Scenario.J,
       Scenario.U rat i 0 = if (i < 10)%N then 2 else 1 / 10).
Proof.
move/(_ ord0); rewrite scenario_U => h.
have {h} : (1 / 10 : rat) = 2 by exact: h.
by lra.
Qed.

(** ** More on the diffusion operators *)

Section OperatorFacts.

Variable F : realFieldType.
Variable J : nat.
Hypothesis J_ge2 : (1 < J)%N.

Local Notation vec := 'cV[F]_J.

Lemma tridiagonal_sym (dB dI off : F) (i j : nat) :
  tridiagonal J dB dI off i j = tridiagonal J dB dI off j i.
Proof.
rewrite /tridiagonal [j == i]eq_sym; case: eqP => [->|_] //.
by rewrite orbC.
Qed.

Lemma A_of_sym (sigma : F) : (A_of J sigma)^T = A_of J sigma.
Proof.
by apply/matrixP => i j; rewrite mxE !A_ofE // tridiagonal_sym.
Qed.

Lemma B_of_sym (sigma : F) : (B_of J sigma)^T = B_of J sigma.
Proof.
by apply/matrixP => i j; rewrite mxE !B_ofE // tridiagonal_sym.
Qed.

Lemma A_of_rowsum (sigma : F) (i : 'I_J) : \sum_(j < J) A_of J sigma i j = 1.
Proof.
rewrite -(A_of_colsum J_ge2 sigma i); apply: eq_bigr => j _.
by rewrite -[in LHS]A_of_sym mxE.
Qed.

Lemma B_of_rowsum (sigma : F) (i : 'I_J) : \sum_(j < J) B_of J sigma i j = 1.
Proof.
rewrite -(B_of_colsum J_ge2 sigma i); apply: eq_bigr => j _.
by rewrite -[in LHS]B_of_sym mxE.
Qed.

Lemma mul_const (M : 'M[F]_J) (c : F) :
  (forall i, \sum_j M i j = 1) -> M *m const_mx c = const_mx c :> vec.
Proof.
move=> row1; apply/colP => i; rewrite !mxE.
under eq_bigr => j _ do rewrite mxE.
by rewrite -mulr_suml row1 mul1r.
Qed.

(** X1: both operators are symmetric and the sum of the implicit and the
    explicit operator of one diffusion number is twice the identity: the
    two halves of the Crank-Nicolson average carry the same discrete
    Laplacian with opposite signs. *)
Theorem operators_symmetric_and_complementary (sigma : F) :
  [/\ (A_of J sigma)^T = A_of J sigma,
      (B_of J sigma)^T = B_of J sigma
    & A_of J sigma + B_of J sigma = 2%:M].
Proof.
split; [exact: A_of_sym | exact: B_of_sym |].
apply/matrixP => i j; rewrite [LHS]mxE A_ofE // B_ofE // [RHS]mxE.
rewrite /tridiagonal -val_eqE /=.
case: eqP => _; last by case: ifP => _; rewrite mulr0n; ring.
by rewrite mulr1n; case: ifP => _; ring.
Qed.

Lemma dot_B_const (sigma c : F) :
  Numpy.dot (B_of J sigma) (const_mx c) = const_mx c.
Proof. exact: (mul_const c (B_of_rowsum sigma)). Qed.

Lemma solve_A_const (sigma c : F) :
  0 <= sigma -> Numpy.solve (A_of J sigma) (const_mx c) = Some (const_mx c).
Proof.
move=> s0; rewrite (solveE _ (A_of_unitmx J_ge2 s0)); congr Some.
by rewrite -[in LHS](mul_const c (A_of_rowsum sigma)) mulKmx // A_of_unitmx.
Qed.

Lemma A_of_0 : A_of J (0 : F) = 1%:M.
Proof.
apply/matrixP => i j; rewrite A_ofE // mxE /tridiagonal -val_eqE /=.
by case: eqP => _; [case: ifP => _; rewrite mulr1n; ring
                  | case: ifP => _; rewrite mulr0n ?oppr0].
Qed.

Lemma B_of_0 : B_of J (0 : F) = 1%:M.
Proof.
apply/matrixP => i j; rewrite B_ofE // mxE /tridiagonal -val_eqE /=.
by case: eqP => _; [case: ifP => _; rewrite mulr1n; ring
                  | case: ifP => _; rewrite mulr0n].
Qed.

Lemma uniform_state_aux (sigma c : F) :
  0 <= sigma ->
  Numpy.dot (B_of J sigma) (const_mx c) = const_mx c
  /\ Numpy.solve (A_of J sigma) (Numpy.dot (B_of J sigma) (const_mx c))
     = Some (const_mx c).
Proof. by move=> s0; rewrite dot_B_const solve_A_const. Qed.

(** X2: a spatially uniform concentration is left unchanged by the
    diffusion half of a time step: the explicit operator maps it to itself
    and, for [sigma >= 0], the implicit solve returns it. *)
Theorem uniform_state_fixed (sigma c : F) :
  0 <= sigma ->
  Numpy.dot (B_of J sigma) (const_mx c) = const_mx c
  /\ Numpy.solve (A_of J sigma) (Numpy.dot (B_of J sigma) (const_mx c))
     = Some (const_mx c).
Proof. by move=> s0; rewrite dot_B_const solve_A_const. Qed.

(** A matrix whose rows sum to 1 and whose off-diagonal entries are not
    positive has an inverse that does not increase the maximum norm. *)
Lemma rowsum1_max_norm (M : 'M[F]_J) (bound : F) (b x : vec) :
  (forall i, \sum_j M i j = 1) ->
  (forall i j, i != j -> M i j <= 0) ->
  M *m x = b ->
  (forall j, `|b j 0| <= bound) ->
  forall i, `|x i 0| <= bound.
Proof.
move=> row1 off Mx bM i.
case: (arg_maxP (fun k => `|x k 0|) (erefl (xpredT i))) => i0 _ max.
apply: le_trans (max i isT) _.
have dg : M i0 i0 = 1 - \sum_(k < J | k != i0) M i0 k.
  by rewrite -(row1 i0) (bigD1 i0) //= addrK.
have off0 k : k != i0 -> M i0 k <= 0.
  by move=> ki; apply: off; rewrite eq_sym.
have dg1 : 1 <= M i0 i0.
  by rewrite dg lerDl oppr_ge0; apply: sumr_le0 => k ki; exact: off0.
have bE : b i0 0 = M i0 i0 * x i0 0 + \sum_(k < J | k != i0) M i0 k * x k 0.
  by rewrite -Mx mxE (bigD1 i0).
have le_rest : `|\sum_(k < J | k != i0) M i0 k * x k 0|
               <= (M i0 i0 - 1) * `|x i0 0|.
  rewrite (le_trans (ler_norm_sum _ _ _)) //.
  have -> : M i0 i0 - 1 = \sum_(k < J | k != i0) (- M i0 k).
    by rewrite sumrN dg; ring.
  rewrite mulr_suml; apply: ler_sum => k ki.
  rewrite normrM (ler0_norm (off0 _ ki)).
  by apply: ler_wpM2l; [rewrite oppr_ge0 off0 | exact: max].
have : M i0 i0 * `|x i0 0| <= `|b i0 0| + (M i0 i0 - 1) * `|x i0 0|.
  have -> : M i0 i0 * `|x i0 0| = `|M i0 i0 * x i0 0|.
    by rewrite normrM [`|M _ _|]ger0_norm //; exact: le_trans ler01 dg1.
  have -> : M i0 i0 * x i0 0
            = b i0 0 - \sum_(k < J | k != i0) M i0 k * x k 0.
    by rewrite bE addrK.
  by rewrite (le_trans (ler_normB _ _)) // lerD2l.
by have := bM i0; move: (`|x i0 0|) (`|b i0 0|) (M i0 i0) => a c d; nra.
Qed.

(** X3: the implicit solve does not increase the maximum norm: for
    [sigma >= 0], if every entry of the right-hand side is bounded by [M]
    in absolute value then so is every entry of the solution. *)
Theorem solve_max_norm (sigma M : F) (b x : vec) :
  0 <= sigma ->
  Numpy.solve (A_of J sigma) b = Some x ->
  (forall j, `|b j 0| <= M) ->
  forall i, `|x i 0| <= M.
Proof.
move=> s0 /solve_sound [_ Ax] bM.
apply: (rowsum1_max_norm _ _ Ax bM); first exact: A_of_rowsum.
by move=> i j; exact: A_of_offdiag.
Qed.

(** X4: without diffusion ([sigma = 0], as for a diffusion coefficient or
    a time step of zero) both operators are the identity, so the implicit
    solve returns its right-hand side. *)
Theorem no_diffusion_identity (dx dt D : F) (b : vec) :
  [/\ sigma_u dx dt (0 : F) = 0, sigma_u dx (0 : F) D = 0,
      A_of J (0 : F) = 1%:M, B_of J (0 : F) = 1%:M
    & Numpy.solve (A_of J 0) b = Some b].
Proof.
split; [| | exact: A_of_0 | exact: B_of_0 |].
- by rewrite /sigma_u !(mul0r, mulr0).
- by rewrite /sigma_u !(mul0r, mulr0).
- by rewrite A_of_0 /Numpy.solve unitmx1 invmx1 mul1mx.
Qed.

End OperatorFacts.

(** ** More on the reaction integrators *)

Section ReactionFacts.

Variable F : realFieldType.
Variables (J : nat) (dt k0 : F).

Local Notation vec := 'cV[F]_J.

Lemma f_rate (u v : F) : f dt k0 u v = dt * rate k0 u v.
Proof. by rewrite /f /rate !expr2. Qed.

Lemma rk4_rate0 (u v : F) : dt * rate k0 u v = 0 -> rk4 dt k0 u v = 0.
Proof.
move=> /eqP; rewrite mulf_eq0 => /orP [/eqP t0|/eqP r0].
  by rewrite /rk4 t0 !mul0r.
by rewrite /rk4 r0 !(mulr0, addr0, subr0) r0 !(mulr0, addr0, subr0) r0
           !(mulr0, addr0, subr0) r0 !(mulr0, addr0).
Qed.

(** X5: the vectorised explicit integrator and the scalar lambdas agree:
    at every grid point [f_vec_ee] returns what [f] returns on the two
    concentrations there, and its negation is what [g] returns. *)
Theorem f_vec_ee_is_f_pointwise (X Y : vec) :
  f_vec_ee dt k0 X Y = Some (\col_i f dt k0 (X i 0) (Y i 0))
  /\ omap -%R (f_vec_ee dt k0 X Y) = Some (\col_i g dt k0 (X i 0) (Y i 0)).
Proof.
rewrite f_vec_eeE /=; split; congr Some; apply/colP => i.
by rewrite !mxE /g f_rate.
Qed.

(** X6: where the explicit integrator finds no reaction (it returns the
    zero vector, as at a kinetic equilibrium or for a time step of zero),
    the Runge-Kutta integrator returns the zero vector too. *)
Theorem f_vec_rk_zero_of_ee_zero (X Y : vec) :
  f_vec_ee dt k0 X Y = Some 0 -> f_vec_rk dt k0 X Y = Some 0.
Proof.
rewrite f_vec_eeE f_vec_rkE => -[/colP z]; congr Some; apply/colP => i.
by have := z i; rewrite !mxE; exact: rk4_rate0.
Qed.

End ReactionFacts.

(** ** More on the time loop *)

Section LoopFacts.

Variable F : realFieldType.
Variables (J N : nat) (dx dt D_u D_v k0 : F).
Variables (junk U0 V0 : 'cV[F]_J).

Local Notation vec := 'cV[F]_J.
Local Notation Au := (A_u J dx dt D_u).
Local Notation Bu := (B_u J dx dt D_u).
Local Notation Av := (A_v J dx dt D_v).
Local Notation Bv := (B_v J dx dt D_v).
Local Notation ree := (reaction_ee dt k0).
Local Notation rrk := (reaction_rk dt k0).
Local Notation nxt := (next dx dt D_u D_v).
Local Notation st rc := (state dx dt D_u D_v rc U0 V0).
Local Notation upto := (records_upto N dx dt D_u D_v k0 junk U0 V0).
Local Notation the_run := (run N dx dt D_u D_v k0 junk U0 V0).


Lemma setitem_frame (rec rec' : seq vec) (i : nat) (x : vec) :
  Numpy.setitem rec i x = Some rec' ->
  [/\ (i < size rec)%N, size rec' = size rec, nth 0 rec' i = x
    & forall n, n != i -> nth 0 rec' n = nth 0 rec n].
Proof.
rewrite /Numpy.setitem; case: ifP => // lt_i [<-]; split=> //.
- by rewrite size_set_nth; apply/maxn_idPr.
- by rewrite nth_set_nth /= eqxx.
- by move=> n /negPf ni; rewrite nth_set_nth /= ni.
Qed.

Lemma assign_U_frame fv (rU rV rU' : seq vec) (ti : nat) :
  assign_U dx dt D_u fv rU rV ti = Some rU' ->
  [/\ (ti < size rU)%N, size rU' = size rU
    & forall n, n != ti -> nth 0 rU' n = nth 0 rU n].
Proof.
rewrite /assign_U.
case: (Numpy.getitem rU _) => //= X; case: (Numpy.getitem rV _) => //= Y.
case: (rhs_U _ _ _ _ _ _) => //= b; case: (Numpy.solve _ _) => //= x.
by case/setitem_frame.
Qed.

Lemma assign_V_frame fv (rU rV rV' : seq vec) (ti : nat) :
  assign_V dx dt D_v fv rU rV ti = Some rV' ->
  [/\ (ti < size rV)%N, size rV' = size rV
    & forall n, n != ti -> nth 0 rV' n = nth 0 rV n].
Proof.
rewrite /assign_V.
case: (Numpy.getitem rV _) => //= Y; case: (Numpy.getitem rU _) => //= X.
case: (rhs_V _ _ _ _ _ _) => //= b; case: (Numpy.solve _ _) => //= x.
by case/setitem_frame.
Qed.

(** X8: an iteration of the loop that returns has written inside the four
    records and only to their row [ti]: every record keeps its length, and
    every entry other than entry [ti] (the initial condition and all
    earlier steps among them) is as before. *)
Theorem loop_body_frame (r r' : records F J) (ti : nat) :
  (0 < ti)%N ->
  loop_body dx dt D_u D_v k0 r ti = Some r' ->
  [/\ [/\ (ti < size (U_record_ee r))%N, (ti < size (V_record_ee r))%N,
          (ti < size (U_record_rk r))%N & (ti < size (V_record_rk r))%N],
      [/\ size (U_record_ee r') = size (U_record_ee r),
          size (V_record_ee r') = size (V_record_ee r),
          size (U_record_rk r') = size (U_record_rk r)
        & size (V_record_rk r') = size (V_record_rk r)]
    & forall n, n != ti ->
        entry_ee r' n = entry_ee r n /\ entry_rk r' n = entry_rk r n].
Proof.
move=> _; rewrite /loop_body.
case eUe: (assign_U _ _ _ (f_vec_ee _ _) _ _ _) => [Uee|] //=.
case eVe: (assign_V _ _ _ (f_vec_ee _ _) _ _ _) => [Vee|] //=.
case eUr: (assign_U _ _ _ (f_vec_rk _ _) _ _ _) => [Urk|] //=.
case eVr: (assign_V _ _ _ (f_vec_rk _ _) _ _ _) => [Vrk|] //= [<-].
have [lUe sUe fUe] := assign_U_frame eUe.
have [lVe sVe fVe] := assign_V_frame eVe.
have [lUr sUr fUr] := assign_U_frame eUr.
have [lVr sVr fVr] := assign_V_frame eVr.
split; [by split | by split | move=> n n_ti].
by rewrite /entry_ee /entry_rk /= fUe // fVe // fUr // fVr.
Qed.

End LoopFacts.

(** ** Stationary runs *)

Section StationaryRuns.

Variable F : realFieldType.
Variables (J N : nat) (dx D_u D_v k0 : F).
Variable junk : 'cV[F]_J.
Hypothesis J_ge2 : (1 < J)%N.

Local Notation vec := 'cV[F]_J.

Lemma state_fixed (dt : F) (rc : vec -> vec -> vec) (U0 V0 : vec) (n : nat) :
  next dx dt D_u D_v rc (U0, V0) = (U0, V0) ->
  state dx dt D_u D_v rc U0 V0 n = (U0, V0).
Proof. by move=> fx; elim: n => [|n IH] //; rewrite stateS IH. Qed.

Lemma run_fixed (dt : F) (U0 V0 : vec) :
  (0 < N)%N ->
  A_u J dx dt D_u \in unitmx -> A_v J dx dt D_v \in unitmx ->
  next dx dt D_u D_v (reaction_ee dt k0) (U0, V0) = (U0, V0) ->
  next dx dt D_u D_v (reaction_rk dt k0) (U0, V0) = (U0, V0) ->
  exists r : records F J,
    run N dx dt D_u D_v k0 junk U0 V0 = Some r
    /\ forall n, (n < N)%N ->
         entry_ee r n = (U0, V0) /\ entry_rk r n = (U0, V0).
Proof.
move=> N0 uA uV fee frk.
exists (records_upto N dx dt D_u D_v k0 junk U0 V0 N); split.
  exact: runE.
by move=> n nN; rewrite entry_ee_upto // entry_rk_upto // !state_fixed.
Qed.

Lemma reaction_dt0 (X Y : vec) :
  reaction_ee 0 k0 X Y = 0 /\ reaction_rk 0 k0 X Y = 0.
Proof.
by split; apply/colP => i; rewrite !mxE ?mul0r // /rk4 !mul0r.
Qed.

(** X9: with a time step of zero ([T = 0]) nothing moves: on a grid with
    [J >= 2] and [N >= 1] the cell returns, and every entry of both
    trajectories is the initial condition. *)
Theorem zero_time_step_stationary (U0 V0 : vec) :
  (0 < N)%N ->
  exists r : records F J,
    run N dx 0 D_u D_v k0 junk U0 V0 = Some r
    /\ forall n, (n < N)%N ->
         entry_ee r n = (U0, V0) /\ entry_rk r n = (U0, V0).
Proof.
move=> N0.
have s0 (D : F) : sigma_u dx 0 D = 0 by rewrite /sigma_u mulr0 mul0r.
have eAu : A_u J dx 0 D_u = 1%:M by rewrite /A_u s0 A_of_0.
have eBu : B_u J dx 0 D_u = 1%:M by rewrite /B_u s0 B_of_0.
have eAv : A_v J dx 0 D_v = 1%:M by rewrite /A_v /sigma_v -/(sigma_u dx 0 D_v) s0 A_of_0.
have eBv : B_v J dx 0 D_v = 1%:M by rewrite /B_v /sigma_v -/(sigma_u dx 0 D_v) s0 B_of_0.
apply: run_fixed => //; rewrite ?eAu ?eAv ?unitmx1 //.
- by rewrite /next eAu eAv eBu eBv /= (reaction_dt0 _ _).1 invmx1 !mul1mx addr0 subr0.
- by rewrite /next eAu eAv eBu eBv /= (reaction_dt0 _ _).2 invmx1 !mul1mx addr0 subr0.
Qed.

Lemma reaction_const0 (dt u v : F) :
  f dt k0 u v = 0 ->
  reaction_ee dt k0 (const_mx u) (const_mx v) = 0 :> vec
  /\ reaction_rk dt k0 (const_mx u) (const_mx v) = 0 :> vec.
Proof.
rewrite f_rate => z; split; apply/colP => i; rewrite !mxE //.
exact: rk4_rate0.
Qed.

(** X10: a spatially uniform state at which the kinetics [f] vanish is a
    steady state of the whole scheme: for non-negative diffusion numbers
    the cell returns, and every entry of both trajectories is that
    state. *)
Theorem uniform_equilibrium_stationary (dt u v : F) :
  (0 < N)%N ->
  0 <= sigma_u dx dt D_u -> 0 <= sigma_v dx dt D_v ->
  f dt k0 u v = 0 ->
  exists r : records F J,
    run N dx dt D_u D_v k0 junk (const_mx u) (const_mx v) = Some r
    /\ forall n, (n < N)%N ->
         entry_ee r n = (const_mx u, const_mx v)
         /\ entry_rk r n = (const_mx u, const_mx v).
Proof.
move=> N0 su sv fz; have [ree0 rrk0] := reaction_const0 fz.
have uA : A_u J dx dt D_u \in unitmx by exact: A_of_unitmx.
have uV : A_v J dx dt D_v \in unitmx by exact: A_of_unitmx.
have fixU : invmx (A_u J dx dt D_u) *m (B_u J dx dt D_u *m const_mx u)
            = const_mx u :> vec.
  rewrite (dot_B_const J_ge2 _ u : B_u J dx dt D_u *m const_mx u = const_mx u :> vec).
  by have := solve_A_const J_ge2 u su; rewrite (solveE _ uA) => -[].
have fixV : invmx (A_v J dx dt D_v) *m (B_v J dx dt D_v *m const_mx v)
            = const_mx v :> vec.
  rewrite (dot_B_const J_ge2 _ v : B_v J dx dt D_v *m const_mx v = const_mx v :> vec).
  by have := solve_A_const J_ge2 v sv; rewrite (solveE _ uV) => -[].
apply: run_fixed => //.
- by rewrite /next /= ree0 addr0 subr0 fixU fixV.
- by rewrite /next /= rrk0 addr0 subr0 fixU fixV.
Qed.

End StationaryRuns.

(** ** The grids *)

Section GridFacts.

Variable F : realFieldType.

Lemma pred_intr (n : nat) : (n%:Z - 1)%:~R = n%:R - 1 :> F.
Proof. by rewrite rmorphB /= rmorph1. Qed.

Lemma pred_intr_eq0 (n : nat) : ((n%:Z - 1)%:~R == 0 :> F) = (n == 1)%N.
Proof. by rewrite intr_eq0 subr_eq0. Qed.

Lemma grid_step (len : F) (n : nat) :
  (1 < n)%N ->
  pydiv len (n%:Z - 1)%:~R = Some (len / n.-1%:R)
  /\ n.-1%:R * (len / n.-1%:R) = len.
Proof.
case: n => [|[|n]] // _.
have nz : n.+1%:R != 0 :> F by rewrite pnatr_eq0.
rewrite /pydiv pred_intr_eq0 /= pred_intr -[in _ - 1]natr1 addrK.
by split=> //; rewrite mulrCA divff // mulr1.
Qed.

Lemma nth_grid (n : nat) (d : F) (j : 'I_n) :
  Numpy.array n [seq k%:R * d | k <- Numpy.range 0 n] j 0 = j%:R * d.
Proof.
by rewrite mxE (nth_map 0%N) ?size_iota ?subn0 // nth_iota ?subn0.
Qed.

(** X11: the grid spacings raise [ZeroDivisionError] exactly for a grid of
    one point: [dx] is defined unless [J = 1], [dt] unless [N = 1]. *)
Theorem grid_spacing_defined (L T : F) (J N : nat) :
  isSome (Grid.dx L J) = (J != 1)%N /\ isSome (Grid.dt T N) = (N != 1)%N.
Proof.
by rewrite /Grid.dx /Grid.dt /pydiv !pred_intr_eq0; do 2!case: ifP.
Qed.

(** X12: with at least two points the space grid is uniform and spans the
    domain: [dx] is returned, [x_grid[j] = j dx], the first point is 0 and
    the last point is [L]; likewise [t_grid] runs from 0 to [T] in steps of
    [dt]. *)
Theorem grids_span (L T : F) (J N : nat) :
  (1 < J)%N -> (1 < N)%N ->
  (exists dx, [/\ Grid.dx L J = Some dx,
                  forall j : 'I_J, Grid.x_grid J dx j 0 = j%:R * dx,
                  forall j : 'I_J, j = 0%N :> nat -> Grid.x_grid J dx j 0 = 0
                & forall j : 'I_J, j = J.-1 :> nat -> Grid.x_grid J dx j 0 = L])
  /\ (exists dt, [/\ Grid.dt T N = Some dt,
                     forall n : 'I_N, Grid.t_grid N dt n 0 = n%:R * dt,
                     forall n : 'I_N, n = 0%N :> nat -> Grid.t_grid N dt n 0 = 0
                   & forall n : 'I_N,
                       n = N.-1 :> nat -> Grid.t_grid N dt n 0 = T]).
Proof.
move=> J1 N1; have [ex mx] := grid_step L J1; have [et mt] := grid_step T N1.
split.
- exists (L / J.-1%:R); split=> // j; rewrite /Grid.x_grid nth_grid // => ->.
  + by rewrite mul0r.
  + exact: mx.
- exists (T / N.-1%:R); split=> // n; rewrite /Grid.t_grid nth_grid // => ->.
  + by rewrite mul0r.
  + exact: mt.
Qed.

End GridFacts.

(** ** The initial condition and the printed masses *)

Section ReportFacts.

Variable F : realFieldType.
Variables (J N : nat) (dx dt D_u D_v k0 : F).
Variable junk : 'cV[F]_J.
Hypothesis J_ge2 : (1 < J)%N.

Local Notation vec := 'cV[F]_J.

Lemma nth_U (no_high : nat) (i : 'I_J) :
  (no_high <= J)%N ->
  U F J no_high i 0 = if (i < J - no_high)%N then 1 / 10 else 2.
Proof.
move=> le_h; rewrite /U /Numpy.array mxE nth_cat size_map size_iota.
case: ltnP => lt_i; first by rewrite nth_const lt_i.
by rewrite nth_const subn0 ltn_subLR // subnK // ltn_ord.
Qed.

(** X13: for every grid and every plateau width [no_high <= J] the list
    the initial [U] is read from has [J] entries, [U] is 0.1 on the first
    [J - no_high] points and 2.0 on the last [no_high], [V] is constant,
    and for [dx <> 0] the initial protein mass is [total_protein]. *)
Theorem initial_condition_any_grid (no_high : nat) (total_protein : F) :
  (no_high <= J)%N -> dx != 0 ->
  [/\ size ([seq (1 / 10 : F) | _ <- Numpy.range no_high J]
            ++ [seq 2 | _ <- Numpy.range 0 no_high]) = J,
      forall i : 'I_J,
        U F J no_high i 0 = if (i < J - no_high)%N then 1 / 10 else 2,
      forall i j : 'I_J,
        V J dx no_high total_protein i 0 = V J dx no_high total_protein j 0
    & protein_mass dx (U F J no_high) (V J dx no_high total_protein)
      = total_protein].
Proof.
move=> le_h nz; split.
- by rewrite size_cat !size_map !size_iota subn0 subnK.
- by move=> i; exact: nth_U.
- by move=> i j; rewrite !V_const.
- apply: initial_mass; rewrite mulf_neq0 // pnatr_eq0.
  by rewrite -lt0n ltnW.
Qed.

Lemma getitem_int_first (h : nat -> vec) :
  (0 < N)%N -> Numpy.getitem_int (filled N junk h N) 0 = Some (h 0%N).
Proof. by move=> N0; rewrite -(@getitem_filled _ _ N junk h N 0%N). Qed.

Lemma getitem_int_last (h : nat -> vec) :
  (0 < N)%N -> Numpy.getitem_int (filled N junk h N) (-1) = Some (h N.-1).
Proof.
move=> N0; rewrite -[(-1)]/(Negz 0) /Numpy.getitem_int size_filled // N0.
by rewrite subn1 nth_filled // prednK.
Qed.

(** X14: on a grid with [J >= 2] and [N >= 1] and with non-negative
    diffusion numbers the cell returns and the four protein masses the
    notebook prints (two read from row 0, two from the last row [[-1]] of
    the records of each variant) all equal the mass of the initial
    condition. *)
Theorem printed_masses_agree (U0 V0 : vec) :
  (0 < N)%N -> 0 <= sigma_u dx dt D_u -> 0 <= sigma_v dx dt D_v ->
  exists r : records F J,
    [/\ run N dx dt D_u D_v k0 junk U0 V0 = Some r,
        initial_mass_report dx r
        = Some (protein_mass dx U0 V0, protein_mass dx U0 V0)
      & final_mass_report dx r
        = Some (protein_mass dx U0 V0, protein_mass dx U0 V0)].
Proof.
move=> N0 su sv.
have uA : A_u J dx dt D_u \in unitmx by exact: A_of_unitmx.
have uV : A_v J dx dt D_v \in unitmx by exact: A_of_unitmx.
exists (records_upto N dx dt D_u D_v k0 junk U0 V0 N); split.
- exact: runE.
- rewrite /initial_mass_report.
  rewrite (getitem_int_first (fun n => (state dx dt D_u D_v (reaction_ee dt k0) U0 V0 n).1) N0).
  by rewrite (getitem_int_first (fun n => (state dx dt D_u D_v (reaction_ee dt k0) U0 V0 n).2) N0).
- rewrite /final_mass_report.
  rewrite (getitem_int_last (fun n => (state dx dt D_u D_v (reaction_ee dt k0) U0 V0 n).1) N0).
  rewrite (getitem_int_last (fun n => (state dx dt D_u D_v (reaction_ee dt k0) U0 V0 n).2) N0).
  rewrite (getitem_int_last (fun n => (state dx dt D_u D_v (reaction_rk dt k0) U0 V0 n).1) N0).
  rewrite (getitem_int_last (fun n => (state dx dt D_u D_v (reaction_rk dt k0) U0 V0 n).2) N0) /=.
  have mee := state_mass U0 V0 J_ge2 (reaction_ee dt k0) N.-1 uA uV.
  have mrk := state_mass U0 V0 J_ge2 (reaction_rk dt k0) N.-1 uA uV.
  by rewrite mee mrk.
Qed.

End ReportFacts.

(** ** Each half of the diffusion step *)

Section DiffusionFacts.

Variable F : realFieldType.
Variable J : nat.
Hypothesis J_ge2 : (1 < J)%N.

Local Notation vec := 'cV[F]_J.


Lemma B_of_ge0 (sigma : F) (i j : 'I_J) :
  0 <= sigma <= 1 / 2 -> 0 <= B_of J sigma i j.
Proof.
move=> /andP [s0 s1]; rewrite B_ofE // /tridiagonal.
by case: ifP => _; case: ifP => _ //; lra.
Qed.

Lemma dot_B_max_norm (sigma M : F) (y : vec) :
  0 <= sigma <= 1 / 2 ->
  (forall j, `|y j 0| <= M) ->
  forall i, `|Numpy.dot (B_of J sigma) y i 0| <= M.
Proof.
move=> s01 yM i; rewrite /Numpy.dot mxE (le_trans (ler_norm_sum _ _ _)) //.
have <- : \sum_(j < J) B_of J sigma i j * M = M.
  by rewrite -mulr_suml B_of_rowsum // mul1r.
apply: ler_sum => j _; rewrite normrM ger0_norm ?B_of_ge0 //.
by apply: ler_wpM2l; rewrite ?B_of_ge0.
Qed.

(** X16: for a diffusion number in [[0, 1/2]] the diffusion half of a time
    step, the explicit product followed by the implicit solve, does not
    increase the maximum norm of the state. *)
Theorem diffusion_step_max_norm (sigma M : F) (y x : vec) :
  0 <= sigma <= 1 / 2 ->
  Numpy.solve (A_of J sigma) (Numpy.dot (B_of J sigma) y) = Some x ->
  (forall j, `|y j 0| <= M) ->
  forall i, `|x i 0| <= M.
Proof.
move=> s01 solved yM; have /andP [s0 _] := s01.
have /solve_sound [_ Ax] := solved.
apply: (rowsum1_max_norm _ _ Ax (dot_B_max_norm s01 yM)).
  exact: A_of_rowsum.
by move=> i j; exact: A_of_offdiag.
Qed.

End DiffusionFacts.

(** ** Bounds on the kinetics *)

Section KineticsFacts.

Variable F : realFieldType.
Variables (dt k0 : F).



End KineticsFacts.

(** ** The statements on the small grid *)

Lemma small_sigma : 0 <= sigma_u SmallGrid.dx SmallGrid.dt SmallGrid.D_u
                    /\ 0 <= sigma_v SmallGrid.dx SmallGrid.dt SmallGrid.D_v.
Proof.
have t0 : 0 <= SmallGrid.dt := divr_ge0 ler01 (ler0n _ 3).
have u0 : 0 <= SmallGrid.D_u := divr_ge0 ler01 (ler0n _ 100).
have v0 : 0 <= SmallGrid.D_v := ler01.
split; [exact: (sigma_ge0 _ u0 t0) | exact: (sigma_v_ge0 _ v0 t0)].
Qed.

Lemma small_run :
  run SmallGrid.N SmallGrid.dx SmallGrid.dt SmallGrid.D_u SmallGrid.D_v
      SmallGrid.k0 SmallGrid.junk SmallGrid.U0 SmallGrid.V0
  = Some SmallGrid.r.
Proof.
have [su sv] := small_sigma.
have J2 : (1 < SmallGrid.J)%N := isT.
have N0 : (0 < SmallGrid.N)%N := isT.
exact: (runE SmallGrid.k0 SmallGrid.junk SmallGrid.U0 SmallGrid.V0
          (A_of_unitmx J2 su) (A_of_unitmx J2 sv) N0).
Qed.

Lemma step_recurrence_witness :
  run SmallGrid.N SmallGrid.dx SmallGrid.dt SmallGrid.D_u SmallGrid.D_v
      SmallGrid.k0 SmallGrid.junk SmallGrid.U0 SmallGrid.V0
  = Some SmallGrid.r
  /\ (0 < 2 < SmallGrid.N)%N
  /\ step_of SmallGrid.dx SmallGrid.dt SmallGrid.D_u SmallGrid.D_v
       (f_vec_ee SmallGrid.dt SmallGrid.k0)
       (entry_ee SmallGrid.r 1) (entry_ee SmallGrid.r 2).
Proof.
have n_in : (0 < 2 < SmallGrid.N)%N := isT.
split; [exact: small_run | split; [exact: n_in |]].
have [ee _ _ _] := step_recurrence small_run n_in.
exact: ee.
Defined.

Lemma operator_builder_witness :
  (1 < SmallGrid.J)%N
  /\ forall i j : 'I_SmallGrid.J,
       A_u SmallGrid.J SmallGrid.dx SmallGrid.dt SmallGrid.D_u i j
       = tridiagonal SmallGrid.J
           (1 + sigma_u SmallGrid.dx SmallGrid.dt SmallGrid.D_u)
           (1 + 2 * sigma_u SmallGrid.dx SmallGrid.dt SmallGrid.D_u)
           (- sigma_u SmallGrid.dx SmallGrid.dt SmallGrid.D_u) i j.
Proof.
have J2 : (1 < SmallGrid.J)%N := isT.
split; [exact: J2 | move=> i j].
have [_ ops _ _] :=
  operator_builder J2 SmallGrid.dx SmallGrid.dt SmallGrid.D_u SmallGrid.D_v.
have [a _] := ops i j.
exact: a.
Defined.

Lemma mass_conserved_witness :
  (1 < SmallGrid.J)%N
  /\ run SmallGrid.N SmallGrid.dx SmallGrid.dt SmallGrid.D_u SmallGrid.D_v
         SmallGrid.k0 SmallGrid.junk SmallGrid.U0 SmallGrid.V0
     = Some SmallGrid.r
  /\ protein_mass SmallGrid.dx (entry_ee SmallGrid.r 3).1
                               (entry_ee SmallGrid.r 3).2
     = protein_mass SmallGrid.dx SmallGrid.U0 SmallGrid.V0.
Proof.
have J2 : (1 < SmallGrid.J)%N := isT.
have n_in : (3 < SmallGrid.N)%N := isT.
split; [exact: J2 | split; [exact: small_run |]].
have [_ all_n _ _] := mass_conserved J2 small_run.
have [ee _] := all_n 3%N n_in.
exact: ee.
Defined.

Lemma reaction_antisymmetric_witness :
  run SmallGrid.N SmallGrid.dx SmallGrid.dt SmallGrid.D_u SmallGrid.D_v
      SmallGrid.k0 SmallGrid.junk SmallGrid.U0 SmallGrid.V0
  = Some SmallGrid.r
  /\ forall j,
       (A_v SmallGrid.J SmallGrid.dx SmallGrid.dt SmallGrid.D_v
          *m (entry_rk SmallGrid.r 2).2
        - B_v SmallGrid.J SmallGrid.dx SmallGrid.dt SmallGrid.D_v
          *m (entry_rk SmallGrid.r 1).2) j 0
       = - (A_u SmallGrid.J SmallGrid.dx SmallGrid.dt SmallGrid.D_u
              *m (entry_rk SmallGrid.r 2).1
            - B_u SmallGrid.J SmallGrid.dx SmallGrid.dt SmallGrid.D_u
              *m (entry_rk SmallGrid.r 1).1) j 0.
Proof.
have n_in : (0 < 2 < SmallGrid.N)%N := isT.
split; [exact: small_run | move=> j].
have [_ _ _ rk] := reaction_antisymmetric small_run.
exact: (rk 2%N j n_in).
Defined.

Lemma implicit_operator_invertible_witness :
  (1 < SmallGrid.J)%N
  /\ 0 <= (1 / 2 : rat)
  /\ A_of SmallGrid.J (1 / 2 : rat) \in unitmx.
Proof.
have J2 : (1 < SmallGrid.J)%N := isT.
have half : 0 <= (1 / 2 : rat) := divr_ge0 ler01 (ler0n _ 2).
split; [exact: J2 | split; [exact: half |]].
have [inv _ _] := implicit_operator_invertible J2 half.
exact: inv.
Defined.

Lemma trajectory_record_witness :
  [/\ (1 < SmallGrid.J)%N, (0 < SmallGrid.N)%N,
      0 <= sigma_u SmallGrid.dx SmallGrid.dt SmallGrid.D_u
    & 0 <= sigma_v SmallGrid.dx SmallGrid.dt SmallGrid.D_v]
  /\ exists r : records rat SmallGrid.J,
       run SmallGrid.N SmallGrid.dx SmallGrid.dt SmallGrid.D_u SmallGrid.D_v
           SmallGrid.k0 SmallGrid.junk SmallGrid.U0 SmallGrid.V0
       = Some r
       /\ size (U_record_ee r) = SmallGrid.N.
Proof.
have J2 : (1 < SmallGrid.J)%N := isT.
have N0 : (0 < SmallGrid.N)%N := isT.
have [su sv] := small_sigma.
split; [split; [exact: J2 | exact: N0 | exact: su | exact: sv] |].
have [r [run_r [sz _ _ _] _ _ _]] :=
  trajectory_record SmallGrid.k0 SmallGrid.junk SmallGrid.U0 SmallGrid.V0
    J2 N0 su sv.
exists r; split; [exact: run_r | exact: sz].
Defined.

(** ** Further statements on the small grid *)

Section SmallInputs.

Variable F : realFieldType.

Lemma half_bounds : 0 <= (1 / 2 : F) <= 1 / 2.
Proof. by rewrite lexx andbT; lra. Qed.

Lemma half_ge0 : 0 <= (1 / 2 : F).
Proof. by lra. Qed.

Lemma half_neq0 : (1 / 2 : F) != 0.
Proof. by apply: lt0r_neq0; lra. Qed.

Lemma const_bound (J : nat) (c : F) (j : 'I_J) :
  `|(const_mx c : 'cV[F]_J) j 0| <= `|c|.
Proof. by rewrite mxE. Qed.

Lemma f_vec_ee_dt0 (J : nat) (k0 : F) (X Y : 'cV[F]_J) :
  f_vec_ee 0 k0 X Y = Some 0.
Proof.
by rewrite f_vec_eeE; congr Some; apply/colP => i; rewrite !mxE mul0r.
Qed.

Lemma f_equilibrium (dt : F) : f dt 0 1 2 = 0.
Proof. by rewrite /f; field. Qed.

Lemma loop_body_first (J N : nat) (dx dt D_u D_v k0 : F)
    (junk U0 V0 : 'cV[F]_J) :
  A_u J dx dt D_u \in unitmx -> A_v J dx dt D_v \in unitmx -> (1 < N)%N ->
  loop_body dx dt D_u D_v k0
    (records_upto N dx dt D_u D_v k0 junk U0 V0 1) 1
  = Some (records_upto N dx dt D_u D_v k0 junk U0 V0 2).
Proof. by move=> uA uV N1; rewrite loop_body_upto ?N1 // uA uV. Qed.

End SmallInputs.

Lemma operators_symmetric_and_complementary_witness :
  (1 < SmallGrid.J)%N
  /\ A_of SmallGrid.J (1 / 2 : rat) + B_of SmallGrid.J (1 / 2 : rat) = 2%:M.
Proof.
have J2 : (1 < SmallGrid.J)%N := isT.
split; [exact: J2 |].
have [_ _ e] := operators_symmetric_and_complementary J2 (1 / 2 : rat).
exact: e.
Defined.

Lemma uniform_state_fixed_witness :
  (1 < SmallGrid.J)%N
  /\ 0 <= (1 / 2 : rat)
  /\ Numpy.solve (A_of SmallGrid.J (1 / 2 : rat))
       (Numpy.dot (B_of SmallGrid.J (1 / 2 : rat)) (const_mx 1))
     = Some (const_mx 1).
Proof.
have J2 : (1 < SmallGrid.J)%N := isT.
split; [exact: J2 | split; [exact: (half_ge0 rat) |]].
have [_ e] := uniform_state_fixed J2 1 (half_ge0 rat).
exact: e.
Defined.

Lemma solve_max_norm_witness :
  [/\ (1 < SmallGrid.J)%N, 0 <= (1 / 2 : rat),
      Numpy.solve (A_of SmallGrid.J (1 / 2 : rat)) (const_mx 1)
      = Some (const_mx 1)
    & forall j : 'I_SmallGrid.J,
        `|(const_mx 1 : 'cV[rat]_SmallGrid.J) j 0| <= `|1|]
  /\ forall i : 'I_SmallGrid.J,
       `|(const_mx 1 : 'cV[rat]_SmallGrid.J) i 0| <= `|1|.
Proof.
have J2 : (1 < SmallGrid.J)%N := isT.
have solved := solve_A_const J2 1 (half_ge0 rat).
have bound := @const_bound rat SmallGrid.J 1.
split; [split; [exact: J2 | exact: (half_ge0 rat) | exact: solved
               | exact: bound] |].
exact: (solve_max_norm J2 (half_ge0 rat) solved bound).
Defined.

Lemma no_diffusion_identity_witness :
  (1 < SmallGrid.J)%N
  /\ Numpy.solve (A_of SmallGrid.J 0) SmallGrid.U0 = Some SmallGrid.U0.
Proof.
have J2 : (1 < SmallGrid.J)%N := isT.
split; [exact: J2 |].
have [_ _ _ _ e] :=
  no_diffusion_identity J2 SmallGrid.dx SmallGrid.dt SmallGrid.D_u
    SmallGrid.U0.
exact: e.
Defined.

Lemma f_vec_rk_zero_of_ee_zero_witness :
  f_vec_ee 0 SmallGrid.k0 SmallGrid.U0 SmallGrid.V0 = Some 0
  /\ f_vec_rk 0 SmallGrid.k0 SmallGrid.U0 SmallGrid.V0 = Some 0.
Proof.
have ee0 := f_vec_ee_dt0 SmallGrid.k0 SmallGrid.U0 SmallGrid.V0.
split; [exact: ee0 |].
exact: (f_vec_rk_zero_of_ee_zero ee0).
Defined.

Lemma loop_body_frame_witness :
  (0 < 1)%N
  /\ loop_body SmallGrid.dx SmallGrid.dt SmallGrid.D_u SmallGrid.D_v
       SmallGrid.k0
       (records_upto SmallGrid.N SmallGrid.dx SmallGrid.dt SmallGrid.D_u
          SmallGrid.D_v SmallGrid.k0 SmallGrid.junk SmallGrid.U0
          SmallGrid.V0 1) 1
     = Some (records_upto SmallGrid.N SmallGrid.dx SmallGrid.dt SmallGrid.D_u
               SmallGrid.D_v SmallGrid.k0 SmallGrid.junk SmallGrid.U0
               SmallGrid.V0 2)
  /\ entry_ee (records_upto SmallGrid.N SmallGrid.dx SmallGrid.dt
                 SmallGrid.D_u SmallGrid.D_v SmallGrid.k0 SmallGrid.junk
                 SmallGrid.U0 SmallGrid.V0 2) 0
     = entry_ee (records_upto SmallGrid.N SmallGrid.dx SmallGrid.dt
                   SmallGrid.D_u SmallGrid.D_v SmallGrid.k0 SmallGrid.junk
                   SmallGrid.U0 SmallGrid.V0 1) 0.
Proof.
have [su sv] := small_sigma.
have J2 : (1 < SmallGrid.J)%N := isT.
have N1 : (1 < SmallGrid.N)%N := isT.
have t0 : (0 < 1)%N := isT.
have ne : (0 != 1)%N := isT.
have body :=
  loop_body_first SmallGrid.k0 SmallGrid.junk SmallGrid.U0 SmallGrid.V0
    (A_of_unitmx J2 su) (A_of_unitmx J2 sv) N1.
split; [exact: t0 | split; [exact: body |]].
have [_ _ frame] := loop_body_frame t0 body.
have [e _] := frame 0%N ne.
exact: e.
Defined.

Lemma zero_time_step_stationary_witness :
  [/\ (1 < SmallGrid.J)%N & (0 < SmallGrid.N)%N]
  /\ exists r : records rat SmallGrid.J,
       run SmallGrid.N SmallGrid.dx 0 SmallGrid.D_u SmallGrid.D_v
           SmallGrid.k0 SmallGrid.junk SmallGrid.U0 SmallGrid.V0
       = Some r
       /\ entry_rk r 3 = (SmallGrid.U0, SmallGrid.V0).
Proof.
have J2 : (1 < SmallGrid.J)%N := isT.
have N0 : (0 < SmallGrid.N)%N := isT.
have n3 : (3 < SmallGrid.N)%N := isT.
split; [split; [exact: J2 | exact: N0] |].
have [r [run_r all_n]] :=
  zero_time_step_stationary SmallGrid.dx SmallGrid.D_u SmallGrid.D_v
    SmallGrid.k0 SmallGrid.junk J2 SmallGrid.U0 SmallGrid.V0 N0.
have [_ e] := all_n 3%N n3.
exists r; split; [exact: run_r | exact: e].
Defined.

Lemma uniform_equilibrium_stationary_witness :
  [/\ (1 < SmallGrid.J)%N, (0 < SmallGrid.N)%N,
      0 <= sigma_u SmallGrid.dx SmallGrid.dt SmallGrid.D_u,
      0 <= sigma_v SmallGrid.dx SmallGrid.dt SmallGrid.D_v
    & f SmallGrid.dt 0 1 2 = 0]
  /\ exists r : records rat SmallGrid.J,
       run SmallGrid.N SmallGrid.dx SmallGrid.dt SmallGrid.D_u SmallGrid.D_v
           0 SmallGrid.junk (const_mx 1) (const_mx 2)
       = Some r
       /\ entry_ee r 3 = (const_mx 1, const_mx 2).
Proof.
have J2 : (1 < SmallGrid.J)%N := isT.
have N0 : (0 < SmallGrid.N)%N := isT.
have n3 : (3 < SmallGrid.N)%N := isT.
have [su sv] := small_sigma.
have eq0 := f_equilibrium SmallGrid.dt.
split; [split; [exact: J2 | exact: N0 | exact: su | exact: sv | exact: eq0] |].
have [r [run_r all_n]] :=
  @uniform_equilibrium_stationary rat SmallGrid.J SmallGrid.N SmallGrid.dx
    SmallGrid.D_u SmallGrid.D_v 0 SmallGrid.junk J2 SmallGrid.dt 1 2
    N0 su sv eq0.
have [e _] := all_n 3%N n3.
exists r; split; [exact: run_r | exact: e].
Defined.

Lemma grids_span_witness :
  [/\ (1 < SmallGrid.J)%N & (1 < SmallGrid.N)%N]
  /\ exists dx : rat, Grid.dx 1 SmallGrid.J = Some dx.
Proof.
have J2 : (1 < SmallGrid.J)%N := isT.
have N1 : (1 < SmallGrid.N)%N := isT.
split; [split; [exact: J2 | exact: N1] |].
have [[dx [e _ _ _]] _] := @grids_span rat 1 1 SmallGrid.J SmallGrid.N J2 N1.
exists dx; exact: e.
Defined.

Lemma initial_condition_any_grid_witness :
  [/\ (1 < SmallGrid.J)%N, (1 <= SmallGrid.J)%N & (1 / 2 : rat) != 0]
  /\ protein_mass (1 / 2 : rat) (U rat SmallGrid.J 1)
       (V SmallGrid.J (1 / 2 : rat) 1 1)
     = 1.
Proof.
have J2 : (1 < SmallGrid.J)%N := isT.
have h1 : (1 <= SmallGrid.J)%N := isT.
split; [split; [exact: J2 | exact: h1 | exact: (half_neq0 rat)] |].
have [_ _ _ e] :=
  @initial_condition_any_grid rat SmallGrid.J (1 / 2) J2 1 1 h1
    (half_neq0 rat).
exact: e.
Defined.

Lemma printed_masses_agree_witness :
  [/\ (1 < SmallGrid.J)%N, (0 < SmallGrid.N)%N,
      0 <= sigma_u SmallGrid.dx SmallGrid.dt SmallGrid.D_u
    & 0 <= sigma_v SmallGrid.dx SmallGrid.dt SmallGrid.D_v]
  /\ exists r : records rat SmallGrid.J,
       run SmallGrid.N SmallGrid.dx SmallGrid.dt SmallGrid.D_u SmallGrid.D_v
           SmallGrid.k0 SmallGrid.junk SmallGrid.U0 SmallGrid.V0
       = Some r
       /\ final_mass_report SmallGrid.dx r
          = Some (protein_mass SmallGrid.dx SmallGrid.U0 SmallGrid.V0,
                  protein_mass SmallGrid.dx SmallGrid.U0 SmallGrid.V0).
Proof.
have J2 : (1 < SmallGrid.J)%N := isT.
have N0 : (0 < SmallGrid.N)%N := isT.
have [su sv] := small_sigma.
split; [split; [exact: J2 | exact: N0 | exact: su | exact: sv] |].
have [r [run_r _ fin]] :=
  @printed_masses_agree rat SmallGrid.J SmallGrid.N SmallGrid.dx SmallGrid.dt
    SmallGrid.D_u SmallGrid.D_v SmallGrid.k0 SmallGrid.junk J2 SmallGrid.U0
    SmallGrid.V0 N0 su sv.
exists r; split; [exact: run_r | exact: fin].
Defined.


Lemma diffusion_step_max_norm_witness :
  [/\ (1 < SmallGrid.J)%N, 0 <= (1 / 2 : rat) <= 1 / 2,
      Numpy.solve (A_of SmallGrid.J (1 / 2 : rat))
        (Numpy.dot (B_of SmallGrid.J (1 / 2 : rat)) (const_mx 1))
      = Some (const_mx 1)
    & forall j : 'I_SmallGrid.J,
        `|(const_mx 1 : 'cV[rat]_SmallGrid.J) j 0| <= `|1|]
  /\ forall i : 'I_SmallGrid.J,
       `|(const_mx 1 : 'cV[rat]_SmallGrid.J) i 0| <= `|1|.
Proof.
have J2 : (1 < SmallGrid.J)%N := isT.
have [_ solved] := uniform_state_aux J2 (1 : rat) (half_ge0 rat).
have bound := @const_bound rat SmallGrid.J 1.
split; [split; [exact: J2 | exact: (half_bounds rat) | exact: solved
               | exact: bound] |].
exact: (diffusion_step_max_norm J2 (half_bounds rat) solved bound).
Defined.

